(** * libbfddp: the BFD data plane client library, [bfddp.c]

    A shallow embedding of [src/libbfddp/bfddp.c].  The C objects are modelled
    as follows.

    - [size_t] is a 64-bit unsigned integer: a [Z] in [0, 2^64), with every
      addition and subtraction of the source wrapped by [sz].
    - The backing storage of a [struct bfddp_buf] is a [list byte]; an offset
      into it is the pointer [buf->buf + offset].
    - The process state the code reads and writes besides its own structures
      ([errno], the data the peer delivers on the socket, the outcomes of the
      other system calls) is an explicit [proc] record that every function
      doing system calls takes and returns.  Each system call is appended to
      the [calls] log of that record, with the [errno] it leaves.
    - [struct bfddp_message] is declared in [bfddp.h]; what the code needs of
      it (its size and where its [length] member lies) is a [message_abi]. *)

From Stdlib Require Import ZArith List Bool Lia.
From Stdlib Require Import Strings.Byte.
Import ListNotations.
Local Open Scope Z_scope.

(** ** Machine integers and platform constants *)

Definition SIZE_WIDTH : Z := 64.

(** Wrap-around of [size_t] arithmetic. *)
Definition sz (z : Z) : Z := z mod 2 ^ SIZE_WIDTH.

Definition is_size (z : Z) : Prop := 0 <= z < 2 ^ SIZE_WIDTH.

(** [errno] values and the [O_NONBLOCK] flag, as Linux defines them. *)
Definition EINTR : Z := 4.
Definition EAGAIN : Z := 11.
Definition EWOULDBLOCK : Z := 11.
Definition EINPROGRESS : Z := 115.
Definition O_NONBLOCK : Z := 2048.

(** ** Memory *)

Definition nat_of (z : Z) : nat := Z.to_nat z.
Definition len {A} (l : list A) : Z := Z.of_nat (length l).

(** [memmove(mem + dst, mem + src, n)] inside one object.  The source range
    is read first, so overlapping ranges are handled as [memmove] does.  A
    range that leaves the object is undefined behaviour in C; here the source
    range is cut at the end of the object. *)
Definition memmove (mem : list byte) (dst src n : Z) : list byte :=
  let chunk := firstn (nat_of n) (skipn (nat_of src) mem) in
  firstn (nat_of dst) mem ++ chunk ++ skipn (nat_of dst + length chunk) mem.

(** Storing the bytes [bs] at [mem + off]. *)
Definition store (mem : list byte) (off : Z) (bs : list byte) : list byte :=
  firstn (nat_of off) mem ++ bs ++ skipn (nat_of off + length bs) mem.

(** The bytes of [mem] in [[lo, hi)]. *)
Definition slice (mem : list byte) (lo hi : Z) : list byte :=
  firstn (nat_of (hi - lo)) (skipn (nat_of lo) mem).

(** ** [struct bfddp_buf] and [struct bfddp_ctx] *)

Record bfddp_buf : Type := mk_buf {
  buf : list byte;
  total : Z;
  position : Z;
  remaining : Z;
  packet : Z
}.

Record bfddp_ctx : Type := mk_ctx {
  sock : Z;
  connecting : bool;
  inbuf : bfddp_buf;
  outbuf : bfddp_buf
}.

Definition set_inbuf (c : bfddp_ctx) (b : bfddp_buf) : bfddp_ctx :=
  mk_ctx (sock c) (connecting c) b (outbuf c).

(** [#define BFDDP_BUF_FULL(buf) ((buf)->position == (buf)->total)] *)
Definition BFDDP_BUF_FULL (b : bfddp_buf) : bool := position b =? total b.

(** ** [bfddp_buf_pulldown] *)

Definition bfddp_buf_pulldown (b : bfddp_buf) : bfddp_buf :=
  if position b =? 0 then b
  else
    let movebytes := sz (position b - packet b) in
    {| buf := memmove (buf b) 0 (packet b) movebytes;
       total := total b;
       position := movebytes;
       remaining := sz (total b - movebytes);
       packet := 0 |}.

(** ** [bfddp_read_finish] *)

Definition bfddp_read_finish (c : bfddp_ctx) : bfddp_ctx :=
  set_inbuf c (bfddp_buf_pulldown (inbuf c)).

(** ** Invariants *)

(** The cursor invariant of a buffer. *)
Definition cursor_inv (b : bfddp_buf) : Prop :=
  remaining b = total b - position b /\
  0 <= packet b /\ packet b <= position b /\ position b <= total b.

(** The storage has [total] bytes and [total] is a [size_t]. *)
Definition storage_ok (b : bfddp_buf) : Prop :=
  len (buf b) = total b /\ is_size (total b).

Definition buf_ok (b : bfddp_buf) : Prop := cursor_inv b /\ storage_ok b.

(** Both buffers of a context satisfy the cursor invariant. *)
Definition ctx_inv (c : bfddp_ctx) : Prop :=
  cursor_inv (inbuf c) /\ cursor_inv (outbuf c).

Definition ctx_ok (c : bfddp_ctx) : Prop :=
  ctx_inv c /\ storage_ok (inbuf c) /\ storage_ok (outbuf c).

(** ** The process: [errno], the socket's input, the system-call log *)

(** What the peer does on the connection, in order: it sends bytes, the next
    [read] fails with an [errno], or it closes the connection (and the
    connection stays closed). *)
Inductive sock_event : Type :=
| Arrive (bs : list byte)
| Fail (e : Z)
| Hangup.

Inductive sockaddr : Type := mk_sockaddr (sa_family : Z) (sa_data : list byte).

Definition sa_family_of (sa : sockaddr) : Z :=
  match sa with mk_sockaddr f _ => f end.

(** A system call with its arguments and its return value. *)
Inductive syscall : Type :=
| SysSocket (family rv : Z)
| SysGetfl (fd rv : Z)
| SysSetfl (fd flags rv : Z)
| SysSetsockopt (fd rv : Z)
| SysConnect (fd : Z) (sa : sockaddr) (salen rv : Z)
| SysClose (fd rv : Z)
| SysRead (fd off count rv : Z).

Record proc : Type := mk_proc {
  errno : Z;
  inbound : list sock_event;   (* what [read] on the socket will find    *)
  closes : list Z;             (* [errno] of each [close] that will fail *)
  calls : list (syscall * Z)   (* system calls issued so far, oldest first,
                                  each with [errno] as it was on return *)
}.

Definition set_errno (e : Z) (p : proc) : proc :=
  mk_proc e (inbound p) (closes p) (calls p).
Definition set_inbound (i : list sock_event) (p : proc) : proc :=
  mk_proc (errno p) i (closes p) (calls p).
Definition set_closes (cl : list Z) (p : proc) : proc :=
  mk_proc (errno p) (inbound p) cl (calls p).
Definition log (s : syscall) (p : proc) : proc :=
  mk_proc (errno p) (inbound p) (closes p) (calls p ++ [(s, errno p)]).

(** The outcome of one system call: its value, or the [errno] it fails with. *)
Inductive sysret : Type :=
| Done (v : Z)
| Failed (e : Z).

(** Return value of a system call, with [errno] set when it fails. *)
Definition ret_of (r : sysret) (p : proc) : Z * proc :=
  match r with
  | Done v => (v, p)
  | Failed e => (-1, set_errno e p)
  end.

(** How the kernel answers the calls of [bfddp_connect]. *)
Record kernel : Type := mk_kernel {
  k_socket : sysret;
  k_getfl : sysret;
  k_setfl : sysret;
  k_setsockopt : sysret;
  k_connect : sysret
}.

(** *** [read] on the non-blocking socket *)

Inductive read_result : Type :=
| RBytes (bs : list byte)
| REof
| RErr (e : Z).

(** What a [read] of at most [count > 0] bytes finds, and what is left for
    the next one.  With nothing pending the call would block. *)
Fixpoint deliver (count : nat) (pending : list sock_event)
  : read_result * list sock_event :=
  match pending with
  | [] => (RErr EAGAIN, [])
  | Fail e :: rest => (RErr e, rest)
  | Hangup :: _ => (REof, pending)
  | Arrive [] :: rest => deliver count rest
  | Arrive bs :: rest =>
      if (length bs <=? count)%nat then (RBytes bs, rest)
      else (RBytes (firstn count bs), Arrive (skipn count bs) :: rest)
  end.

(** [read(fd, mem + off, count)]: the return value, the memory and the
    process afterwards.  A [read] of zero bytes returns 0. *)
Definition sys_read (fd : Z) (mem : list byte) (off count : Z) (p : proc)
  : Z * list byte * proc :=
  if count =? 0 then (0, mem, log (SysRead fd off count 0) p)
  else
    match deliver (nat_of count) (inbound p) with
    | (RBytes bs, rest) =>
        (len bs, store mem off bs,
         log (SysRead fd off count (len bs)) (set_inbound rest p))
    | (REof, rest) =>
        (0, mem, log (SysRead fd off count 0) (set_inbound rest p))
    | (RErr e, rest) =>
        (-1, mem,
         log (SysRead fd off count (-1)) (set_errno e (set_inbound rest p)))
    end.

(** An upper bound on the number of [read]s that return data. *)
Fixpoint backlog (pending : list sock_event) : nat :=
  match pending with
  | [] => 0
  | Arrive bs :: rest => S (length bs + backlog rest)
  | _ :: rest => S (backlog rest)
  end.

(** ** [bfddp_buf_read] *)

Definition is_transient (e : Z) : bool :=
  (e =? EINTR) || (e =? EAGAIN) || (e =? EWOULDBLOCK).

Definition bfddp_buf_read (sock : Z) (b : bfddp_buf) (p : proc)
  : Z * bfddp_buf * proc :=
  if BFDDP_BUF_FULL b then (0, b, p)
  else
    let '(rv, mem, p1) := sys_read sock (buf b) (position b) (remaining b) p in
    let b1 := mk_buf mem (total b) (position b) (remaining b) (packet b) in
    if rv =? 0 then (-1, b1, set_errno 0 p1)
    else if rv =? -1 then
      if is_transient (errno p1) then (0, b1, p1) else (-1, b1, p1)
    else
      (rv,
       mk_buf mem (total b) (sz (position b + rv)) (sz (remaining b - rv))
              (packet b),
       p1).

(** ** [struct bfddp_message] *)

(** The part of [bfddp.h] the code depends on: [sizeof(struct bfddp_message)],
    and the offset, size and byte order of its [length] member, which the
    code reads in host order. *)
Record message_abi : Type := mk_abi {
  sizeof_message : Z;
  length_offset : Z;
  length_size : Z;
  big_endian : bool
}.

Definition byte_val (b : byte) : Z := Z.of_N (Byte.to_N b).

(** Little-endian value of a byte string. *)
Fixpoint le_value (bs : list byte) : Z :=
  match bs with
  | [] => 0
  | b :: rest => byte_val b + 256 * le_value rest
  end.

(** The unsigned integer of [n] bytes at [mem + off]; [None] when the bytes
    are not all inside the object. *)
Definition load (big : bool) (mem : list byte) (off n : Z) : option Z :=
  if (0 <=? off) && (0 <=? n) && (off + n <=? len mem) then
    let bs := slice mem off (off + n) in
    Some (le_value (if big then rev bs else bs))
  else None.

(** ** [bfddp_read] *)

(** The [do ... while (rv > 0)] loop of [bfddp_read]; [total] is the running
    total, an [ssize_t] that never exceeds the capacity of the buffer.  The
    loop is by recursion on [fuel]; it goes round again only after a [read]
    that returned data, so the [backlog] of the socket bounds its rounds. *)
Fixpoint bfddp_read_loop (fuel : nat) (sock : Z) (b : bfddp_buf) (total : Z)
  (p : proc) : option (Z * bfddp_buf * proc) :=
  match fuel with
  | O => None
  | S fuel' =>
      let '(rv, b1, p1) := bfddp_buf_read sock b p in
      if rv =? -1 then
        if total =? 0 then Some (-1, b1, p1) else Some (total, b1, p1)
      else
        let total1 := total + rv in
        if BFDDP_BUF_FULL b1 then Some (total1, b1, p1)
        else if rv =? 0 then Some (total1, b1, p1)
        else if 0 <? rv then bfddp_read_loop fuel' sock b1 total1 p1
        else Some (total1, b1, p1)
  end.

(** The prevention check at the entry of [bfddp_read]:
    [if (buf->remaining <= sizeof(struct bfddp_message))
       bfddp_buf_pulldown(buf);] *)
Definition read_guard (abi : message_abi) (b : bfddp_buf) : bfddp_buf :=
  if remaining b <=? sizeof_message abi then bfddp_buf_pulldown b else b.

(** [bfddp_read].  [None] would mean that the loop did not end within the
    fuel given, which [bfddp_read_returns] excludes. *)
Definition bfddp_read (abi : message_abi) (c : bfddp_ctx) (p : proc)
  : option (Z * bfddp_ctx * proc) :=
  match bfddp_read_loop (S (backlog (inbound p))) (sock c)
          (read_guard abi (inbuf c)) 0 p with
  | Some (rv, b, p') => Some (rv, set_inbuf c b, p')
  | None => None
  end.

(** ** [bfddp_next_message] *)

(** The pointer returned: [NULL], or [&buf->buf[off]].  Reading the header
    outside the storage is undefined behaviour in C, kept apart here. *)
Inductive message_ptr : Type :=
| MsgNull
| MsgAt (off : Z)
| MsgOutOfBounds.

Definition bfddp_next_message (abi : message_abi) (c : bfddp_ctx)
  : message_ptr :=
  let b := inbuf c in
  if packet b >=? position b then MsgNull
  else
    let msg := position b in
    match load (big_endian abi) (buf b) (msg + length_offset abi)
               (length_size abi) with
    | None => MsgOutOfBounds
    | Some length => if length >? position b then MsgNull else MsgAt msg
    end.

(** ** [bfddp_new] *)

(** The allocator: whether [calloc] of the context succeeds, and for each
    [malloc] the indeterminate bytes of the block, or [None] when it fails. *)
Record heap : Type := mk_heap {
  calloc_ctx : bool;
  malloc_in : option (nat -> byte);
  malloc_out : option (nat -> byte)
}.

Definition malloc (junk : option (nat -> byte)) (size : Z)
  : option (list byte) :=
  match junk with
  | Some f => Some (map f (seq 0 (nat_of size)))
  | None => None
  end.

Definition bfddp_new (h : heap) (inbuflen outbuflen : Z) : option bfddp_ctx :=
  if negb (calloc_ctx h) then None
  else
    let inbuflen := if inbuflen <=? 4096 then 4096 else inbuflen in
    match malloc (malloc_in h) inbuflen with
    | None => None
    | Some inmem =>
        let outbuflen := if outbuflen <=? 4096 then 4096 else outbuflen in
        match malloc (malloc_out h) outbuflen with
        | None => None
        | Some outmem =>
            Some {| sock := 0;
                    connecting := false;
                    inbuf := mk_buf inmem inbuflen 0 inbuflen 0;
                    outbuf := mk_buf outmem outbuflen 0 outbuflen 0 |}
        end
    end.

(** ** Socket set-up and [bfddp_connect] *)

Definition sys_socket (k : kernel) (family : Z) (p : proc) : Z * proc :=
  let '(rv, p1) := ret_of (k_socket k) p in (rv, log (SysSocket family rv) p1).

Definition sys_getfl (k : kernel) (fd : Z) (p : proc) : Z * proc :=
  let '(rv, p1) := ret_of (k_getfl k) p in (rv, log (SysGetfl fd rv) p1).

Definition sys_setfl (k : kernel) (fd flags : Z) (p : proc) : Z * proc :=
  let '(rv, p1) := ret_of (k_setfl k) p in (rv, log (SysSetfl fd flags rv) p1).

Definition sys_setsockopt (k : kernel) (fd : Z) (p : proc) : Z * proc :=
  let '(rv, p1) := ret_of (k_setsockopt k) p in
  (rv, log (SysSetsockopt fd rv) p1).

Definition sys_connect (k : kernel) (fd : Z) (sa : sockaddr) (salen : Z)
  (p : proc) : Z * proc :=
  let '(rv, p1) := ret_of (k_connect k) p in
  (rv, log (SysConnect fd sa salen rv) p1).

Definition sock_set_nonblock (k : kernel) (sock : Z) (p : proc) : Z * proc :=
  let '(flags, p1) := sys_getfl k sock p in
  if flags =? -1 then (-1, p1)
  else if negb (Z.land flags O_NONBLOCK =? 0) then (0, p1)
  else
    let flags := Z.lor flags O_NONBLOCK in
    let '(rv, p2) := sys_setfl k sock flags p1 in
    if rv =? -1 then (-1, p2) else (0, p2).

Definition socktcp_set_nodelay (k : kernel) (sock : Z) (p : proc) : Z * proc :=
  let '(rv, p1) := sys_setsockopt k sock p in
  if negb (rv =? 0) then (-1, p1) else (0, p1).

(** The [do ... while (rv == -1)] loop of [sock_close], by recursion on the
    failures [close] still has in store: [close] returns 0, or it returns -1
    with an [errno], and only [EINTR] leads to another attempt. *)
Fixpoint close_attempts (sock : Z) (failures : list Z) (p : proc) : proc :=
  match failures with
  | [] => log (SysClose sock 0) (set_closes [] p)
  | e :: rest =>
      let p1 := log (SysClose sock (-1)) (set_errno e (set_closes rest p)) in
      if negb (e =? EINTR) then p1 else close_attempts sock rest p1
  end.

Definition sock_close (sock : Z) (p : proc) : proc :=
  let errnoc := errno p in
  let p1 := close_attempts sock (closes p) p in
  set_errno errnoc p1.

Definition bfddp_connect (k : kernel) (bctx : bfddp_ctx) (sa : sockaddr)
  (salen : Z) (p : proc) : Z * bfddp_ctx * proc :=
  let '(sock, p1) := sys_socket k (sa_family_of sa) p in
  if sock =? -1 then (-1, bctx, p1)
  else
    let '(rv, p2) := sock_set_nonblock k sock p1 in
    if rv =? -1 then (-1, bctx, sock_close sock p2)
    else
      let '(rv, p3) := socktcp_set_nodelay k sock p2 in
      if rv =? -1 then (-1, bctx, sock_close sock p3)
      else
        let '(rv, p4) := sys_connect k sock sa salen p3 in
        if (rv =? -1) && negb (errno p4 =? EINPROGRESS) then
          (-1, bctx, sock_close sock p4)
        else
          (0, mk_ctx sock (rv =? -1) (inbuf bctx) (outbuf bctx), p4).

(** ** Reachable contexts *)

(** The contexts a caller can hold: made by [bfddp_new] from capacities that
    are [size_t] values, then passed to the other operations. *)
Inductive reachable : bfddp_ctx -> Prop :=
| reach_new h inbuflen outbuflen c :
    is_size inbuflen -> is_size outbuflen ->
    bfddp_new h inbuflen outbuflen = Some c -> reachable c
| reach_connect k c sa salen p rv c' p' :
    reachable c -> bfddp_connect k c sa salen p = (rv, c', p') ->
    reachable c'
| reach_read abi c p rv c' p' :
    reachable c -> bfddp_read abi c p = Some (rv, c', p') -> reachable c'
| reach_finish c :
    reachable c -> reachable (bfddp_read_finish c).

(** ** Vocabulary of the statements below *)

(** The bytes a logged call brought in. *)
Definition read_count (s : syscall * Z) : Z :=
  match fst s with
  | SysRead _ _ _ rv => Z.max 0 rv
  | _ => 0
  end.

Definition received (tr : list (syscall * Z)) : Z :=
  fold_right (fun s n => read_count s + n) 0 tr.

(** [data_reads fd tot e pos tr pos']: [tr] is a run of [read]s on [fd] that
    each returned data, the first into offset [pos] of a buffer of [tot]
    bytes, each asking for all the free space, the last ending at [pos'];
    [e] is [errno], which they leave alone. *)
Inductive data_reads (fd tot e : Z)
  : Z -> list (syscall * Z) -> Z -> Prop :=
| reads_none pos : data_reads fd tot e pos [] pos
| reads_more pos n tr pos' :
    pos < tot -> 0 < n <= tot - pos ->
    data_reads fd tot e (pos + n) tr pos' ->
    data_reads fd tot e pos ((SysRead fd pos (tot - pos) n, e) :: tr) pos'.

(** How the loop of [bfddp_read] ends once [t] bytes are in and the buffer is
    filled up to [pos]: the last call (if any), [errno] afterwards and the
    value returned.  [e0] is [errno] before. *)
Inductive loop_end (fd tot pos t e0 : Z)
  : list (syscall * Z) -> Z -> Z -> Prop :=
| end_full :
    pos = tot -> loop_end fd tot pos t e0 [] e0 t
| end_closed :
    pos < tot ->
    loop_end fd tot pos t e0 [(SysRead fd pos (tot - pos) 0, e0)] 0
             (if t =? 0 then -1 else t)
| end_transient e :
    pos < tot -> is_transient e = true ->
    loop_end fd tot pos t e0 [(SysRead fd pos (tot - pos) (-1), e)] e t
| end_hard e :
    pos < tot -> is_transient e = false ->
    loop_end fd tot pos t e0 [(SysRead fd pos (tot - pos) (-1), e)] e
             (if t =? 0 then -1 else t).

(** A logged call is a [read] on [fd] into [[off, off + count)], a non-empty
    range inside a buffer of [tot] bytes that ends where the buffer ends. *)
Definition read_within (fd tot : Z) (s : syscall * Z) : Prop :=
  exists off count rv e,
    s = (SysRead fd off count rv, e) /\
    0 <= off < tot /\ 0 < count /\ off + count = tot /\ rv <= count.

(** The first call of a log, if any, is a [read] into offset [off]. *)
Definition first_read_at (off : Z) (tr : list (syscall * Z)) : Prop :=
  match tr with
  | [] => True
  | (SysRead _ o _ _, _) :: _ => o = off
  | _ :: _ => False
  end.

(** The log ends with [close(fd)], and that call was not interrupted. *)
Definition closed_at_end (fd : Z) (tr : list (syscall * Z)) : Prop :=
  exists pre rv e,
    tr = pre ++ [(SysClose fd rv, e)] /\ (rv = 0 \/ e <> EINTR).

Definition is_close (s : syscall * Z) : bool :=
  match fst s with
  | SysClose _ _ => true
  | _ => false
  end.

Definition is_socket (s : syscall * Z) : bool :=
  match fst s with
  | SysSocket _ _ => true
  | _ => false
  end.

(** Every descriptor that a [socket] call of the log returned is closed at
    the end of the log. *)
Definition created_closed (tr : list (syscall * Z)) : Prop :=
  forall family fd e,
    In (SysSocket family fd, e) tr -> fd <> -1 -> closed_at_end fd tr.

(** Making the socket non-blocking succeeds: [O_NONBLOCK] is set already, or
    it is not and setting it succeeds. *)
Inductive nonblock_done (k : kernel) : Prop :=
| nonblock_already flags :
    k_getfl k = Done flags -> 0 <= flags -> Z.land flags O_NONBLOCK <> 0 ->
    nonblock_done k
| nonblock_set flags :
    k_getfl k = Done flags -> 0 <= flags -> Z.land flags O_NONBLOCK = 0 ->
    k_setfl k = Done 0 -> nonblock_done k.

(** [setup_fails k e]: a step of [bfddp_connect] after the creation of the
    socket (reading or setting the file status flags, setting [TCP_NODELAY],
    or [connect] for a reason other than [EINPROGRESS]) fails with [errno]
    [e]. *)
Inductive setup_fails (k : kernel) (e : Z) : Prop :=
| fails_getfl :
    k_getfl k = Failed e -> setup_fails k e
| fails_setfl flags :
    k_getfl k = Done flags -> 0 <= flags ->
    Z.land flags O_NONBLOCK = 0 -> k_setfl k = Failed e ->
    setup_fails k e
| fails_nodelay :
    nonblock_done k -> k_setsockopt k = Failed e -> setup_fails k e
| fails_connect :
    nonblock_done k -> k_setsockopt k = Done 0 ->
    k_connect k = Failed e -> e <> EINPROGRESS -> setup_fails k e.

(** [connect_fails k e]: the creation of the socket, or a later step of
    [bfddp_connect], fails with [errno] [e]. *)
Inductive connect_fails (k : kernel) (e : Z) : Prop :=
| fails_socket :
    k_socket k = Failed e -> connect_fails k e
| fails_setup fd :
    k_socket k = Done fd -> fd <> -1 -> setup_fails k e -> connect_fails k e.

(** ** Concrete states *)

(** A buffer of 8 bytes holding [a b c d e], of which [a b] are consumed. *)
Definition small_buf : bfddp_buf :=
  mk_buf ["a"; "b"; "c"; "d"; "e"; "000"; "000"; "000"]%byte 8 5 3 2.

(** An empty buffer of 8 bytes. *)
Definition empty_buf : bfddp_buf := mk_buf (repeat "000"%byte 8) 8 0 8 0.

Definition small_ctx : bfddp_ctx := mk_ctx 3 false small_buf empty_buf.
Definition empty_ctx : bfddp_ctx := mk_ctx 3 false empty_buf empty_buf.

(** A full buffer of 8 bytes of which the first 6 are consumed. *)
Definition full_buf : bfddp_buf :=
  mk_buf ["a"; "b"; "c"; "d"; "e"; "f"; "g"; "h"]%byte 8 8 0 6.

Definition full_ctx : bfddp_ctx := mk_ctx 3 false full_buf empty_buf.

(** An [errno] of a connection that failed for good, as Linux defines it. *)
Definition ECONNRESET : Z := 104.

(** A heap that grants every request, with zero-filled blocks. *)
Definition zero_heap : heap :=
  mk_heap true (Some (fun _ => "000"%byte)) (Some (fun _ => "000"%byte)).

(** A process with [pending] on the socket and nothing else of note. *)
Definition proc_with (pending : list sock_event) : proc :=
  mk_proc 0 pending [] [].

(** Modelled from the spec: the layout of [struct bfddp_message], which
    [bfddp.h] declares and [bfddp.c] only uses.  The spec says of it that the
    frame begins with a fixed-size header whose first field is the total
    length of the frame; here the header has 8 bytes and the length is its
    first 16 bits, in the byte order of a little-endian host. *)
Definition spec_abi : message_abi := mk_abi 8 0 2 false.

(** A layout of 2 bytes, for buffers of 8 bytes. *)
Definition tiny_abi : message_abi := mk_abi 2 0 2 false.

(** [ECONNREFUSED], as Linux defines it. *)
Definition ECONNREFUSED : Z := 111.

(** A kernel that creates the descriptor 5, lets it be configured, and
    refuses the connection. *)
Definition refusing_kernel : kernel :=
  mk_kernel (Done 5) (Done 2) (Done 0) (Done 0) (Failed ECONNREFUSED).

(** A kernel under which the connection is in progress when [connect]
    returns. *)
Definition slow_kernel : kernel :=
  mk_kernel (Done 5) (Done 2) (Done 0) (Done 0) (Failed EINPROGRESS).

(** A kernel under which the connection is made at once. *)
Definition ready_kernel : kernel :=
  mk_kernel (Done 5) (Done 2) (Done 0) (Done 0) (Done 0).

(** An IPv4 address ([AF_INET] is 2). *)
Definition some_addr : sockaddr := mk_sockaddr 2 [].

(** The context after [bfddp_new(4096, 4096)] on [zero_heap] and a
    [bfddp_connect] under [ready_kernel] (see [ready_ctx_reached]). *)
Definition ready_ctx : bfddp_ctx :=
  mk_ctx 5 false
    (mk_buf (repeat "000"%byte 4096) 4096 0 4096 0)
    (mk_buf (repeat "000"%byte 4096) 4096 0 4096 0).

(** A frame of 30 bytes under [spec_abi]: the length 30, then the rest of
    the header and the payload. *)
Definition frame30 : list byte := ["030"; "000"]%byte ++ repeat "x"%byte 28.

(** The scenario of the spec: a context with buffers of 4096 bytes, a frame
    of 30 bytes that arrives in two reads of 10 and 20 bytes, and
    [bfddp_next_message] after each.  The result has the return value of
    each [bfddp_read], the [packet] and [position] cursors after it, and the
    pointer [bfddp_next_message] returns then. *)
Definition two_reads
  : option ((Z * Z * Z * message_ptr) * (Z * Z * Z * message_ptr)) :=
  match bfddp_new zero_heap 4096 4096 with
  | None => None
  | Some c =>
      let '(_, c0, p0) :=
        bfddp_connect ready_kernel c some_addr 16 (proc_with []) in
      match bfddp_read spec_abi c0
              (set_inbound [Arrive (firstn 10 frame30)] p0) with
      | None => None
      | Some (rv1, c1, p1) =>
          match bfddp_read spec_abi c1
                  (set_inbound [Arrive (skipn 10 frame30)] p1) with
          | None => None
          | Some (rv2, c2, _) =>
              Some ((rv1, packet (inbuf c1), position (inbuf c1),
                     bfddp_next_message spec_abi c1),
                    (rv2, packet (inbuf c2), position (inbuf c2),
                     bfddp_next_message spec_abi c2))
          end
      end
  end.

(** ** Further vocabulary and states *)

(** The bytes pending on the socket, in the order of their arrival. *)
Fixpoint pending_bytes (pending : list sock_event) : list byte :=
  match pending with
  | [] => []
  | Arrive bs :: rest => bs ++ pending_bytes rest
  | _ :: rest => pending_bytes rest
  end.


(** [ready_ctx] after 4096 bytes were read into it: the inbound buffer is
    full (see [filled_ctx_reachable]). *)
Definition filled_ctx : bfddp_ctx :=
  mk_ctx 5 false
    (mk_buf (repeat "x"%byte 4096) 4096 4096 0 0)
    (mk_buf (repeat "000"%byte 4096) 4096 0 4096 0).

(** A kernel under which [O_NONBLOCK] is set already on the new socket. *)
Definition nonblocking_kernel : kernel :=
  mk_kernel (Done 5) (Done 2050) (Failed EINTR) (Done 0) (Done 0).

(** [quiet p p']: from [p] to [p'] system calls were logged, none of them
    [socket] or [close], and the socket's input is as it was. *)
Definition quiet (p p' : proc) : Prop :=
  inbound p' = inbound p /\ closes p' = closes p /\
  exists mid,
    calls p' = calls p ++ mid /\
    existsb is_close mid = false /\ existsb is_socket mid = false.

(** The buffer [b] with other bytes in its storage. *)
Definition set_buf (b : bfddp_buf) (mem : list byte) : bfddp_buf :=
  mk_buf mem (total b) (position b) (remaining b) (packet b).

(** [small_buf] with other bytes where [a b c d e] were received. *)
Definition other_small_mem : list byte :=
  ["v"; "w"; "x"; "y"; "z"; "000"; "000"; "000"]%byte.

(** Nothing but data is pending: no failure and no close. *)
Definition only_data (pending : list sock_event) : Prop :=
  Forall (fun ev => exists bs, ev = Arrive bs) pending.

(** * Properties *)

(** ** Arithmetic and memory *)

Lemma sz_small z : is_size z -> sz z = z.
Proof. unfold is_size, sz. intros. apply Z.mod_small. lia. Qed.

Lemma is_size_between lo hi z :
  is_size hi -> 0 <= lo -> lo <= z <= hi -> is_size z.
Proof. unfold is_size. lia. Qed.

Lemma len_nonneg {A} (l : list A) : 0 <= len l.
Proof. unfold len. lia. Qed.

Lemma len_app {A} (l1 l2 : list A) : len (l1 ++ l2) = len l1 + len l2.
Proof. unfold len. rewrite length_app. lia. Qed.

Lemma length_memmove mem src n : length (memmove mem 0 src n) = length mem.
Proof.
  unfold memmove, nat_of. cbn [Z.to_nat firstn app Nat.add].
  rewrite length_app, length_skipn, length_firstn, length_skipn. lia.
Qed.

Lemma memmove_in_place mem n : memmove mem 0 0 n = mem.
Proof.
  unfold memmove, nat_of. cbn [Z.to_nat firstn skipn app Nat.add].
  destruct (Nat.le_gt_cases (Z.to_nat n) (length mem)) as [Hle | Hgt].
  - rewrite firstn_length_le by exact Hle. apply firstn_skipn.
  - rewrite firstn_all2 by lia. rewrite skipn_all. apply app_nil_r.
Qed.

(** The first [n] bytes after [memmove(mem, mem + src, n)] are the [n] bytes
    that were at [src]. *)
Lemma memmove_moves mem src n :
  0 <= src -> 0 <= n -> src + n <= len mem ->
  slice (memmove mem 0 src n) 0 n = slice mem src (src + n).
Proof.
  intros Hs Hn Hb. unfold slice, memmove, nat_of, len in *.
  cbn [Z.to_nat firstn skipn app Nat.add].
  replace (src + n - src) with n by lia. rewrite Z.sub_0_r.
  set (chunk := firstn (Z.to_nat n) (skipn (Z.to_nat src) mem)).
  assert (Hc : length chunk = Z.to_nat n).
  { subst chunk. rewrite length_firstn, length_skipn. lia. }
  rewrite firstn_app, Hc, Nat.sub_diag, firstn_0, app_nil_r.
  rewrite <- Hc. apply firstn_all.
Qed.

Lemma length_store mem off bs :
  0 <= off -> off + len bs <= len mem -> length (store mem off bs) = length mem.
Proof.
  unfold store, nat_of, len. intros.
  rewrite !length_app, length_firstn, length_skipn. lia.
Qed.

(** A store at [off] leaves the bytes below [off] as they were. *)
Lemma store_below mem off bs :
  0 <= off <= len mem -> slice (store mem off bs) 0 off = slice mem 0 off.
Proof.
  unfold slice, store, nat_of, len. intros H.
  cbn [Z.to_nat skipn]. rewrite Z.sub_0_r.
  rewrite firstn_app, firstn_firstn, Nat.min_id, length_firstn.
  replace (Z.to_nat off - Nat.min (Z.to_nat off) (length mem))%nat
    with 0%nat by lia.
  rewrite firstn_0, app_nil_r. reflexivity.
Qed.

Lemma slice_slice mem a b :
  0 <= a <= b -> slice (slice mem 0 b) 0 a = slice mem 0 a.
Proof.
  unfold slice, nat_of. intros. cbn [Z.to_nat skipn]. rewrite !Z.sub_0_r.
  rewrite firstn_firstn. f_equal. lia.
Qed.

(** Projections of records applied to constructors, and nothing else. *)
Ltac fields :=
  cbn [buf total position remaining packet sock connecting inbuf outbuf
       errno inbound closes calls set_inbuf set_errno set_inbound set_closes
       log fst snd] in *.

(** ** [bfddp_buf_pulldown] on a well-formed buffer *)

Section Pulldown.
Variable b : bfddp_buf.
Hypothesis Hok : buf_ok b.

Lemma pulldown_unfold :
  bfddp_buf_pulldown b =
  mk_buf (memmove (buf b) 0 (packet b) (position b - packet b)) (total b)
         (position b - packet b) (total b - (position b - packet b)) 0.
Proof.
  destruct Hok as [(Hr & Hp0 & Hpp & Hpt) [Hlen Hsz]].
  unfold bfddp_buf_pulldown.
  destruct (Z.eqb_spec (position b) 0) as [E | _].
  - assert (packet b = 0) by lia.
    destruct b as [m t po r pa]; fields; subst.
    rewrite memmove_in_place. f_equal; lia.
  - rewrite (sz_small (position b - packet b))
      by (apply (is_size_between 0 (total b)); auto; lia).
    rewrite sz_small by (apply (is_size_between 0 (total b)); auto; lia).
    reflexivity.
Qed.

Lemma pulldown_ok : buf_ok (bfddp_buf_pulldown b).
Proof.
  rewrite pulldown_unfold.
  destruct Hok as [(Hr & Hp0 & Hpp & Hpt) [Hlen Hsz]].
  unfold buf_ok, cursor_inv, storage_ok, len in *; fields.
  rewrite length_memmove. repeat split; try lia; apply Hsz.
Qed.

Lemma pulldown_contents :
  let b' := bfddp_buf_pulldown b in
  slice (buf b') 0 (position b') = slice (buf b) (packet b) (position b).
Proof.
  rewrite pulldown_unfold. fields.
  destruct Hok as [(Hr & Hp0 & Hpp & Hpt) [Hlen Hsz]].
  rewrite memmove_moves by lia.
  f_equal. lia.
Qed.

Lemma pulldown_packet0 : packet b = 0 -> bfddp_buf_pulldown b = b.
Proof.
  intros E. rewrite pulldown_unfold. rewrite E, Z.sub_0_r.
  rewrite memmove_in_place.
  destruct Hok as [(Hr & _) _]. destruct b; fields; subst. f_equal; lia.
Qed.
End Pulldown.

Lemma pulldown_idem b :
  buf_ok b -> bfddp_buf_pulldown (bfddp_buf_pulldown b) = bfddp_buf_pulldown b.
Proof.
  intros H. apply pulldown_packet0.
  - apply pulldown_ok, H.
  - rewrite pulldown_unfold by exact H. reflexivity.
Qed.

(** ** [read] on the socket *)

Lemma deliver_data count pending bs rest :
  deliver count pending = (RBytes bs, rest) ->
  (length bs <= count)%nat /\
  (bs <> [] -> (backlog rest < backlog pending)%nat).
Proof.
  induction pending as [| ev pending IH]; cbn [deliver]; [discriminate |].
  destruct ev as [l | e |]; [| discriminate | discriminate].
  destruct l as [| x l].
  - intros H. destruct (IH H) as [H1 H2]. split; [exact H1 |].
    intros Hne. specialize (H2 Hne). cbn [backlog length]. lia.
  - destruct (Nat.leb_spec (length (x :: l)) count) as [Hle | Hgt];
      intros H; injection H as <- <-.
    + split; [exact Hle |]. intros _. cbn [backlog]. lia.
    + split; [apply firstn_le_length |]. intros Hne.
      assert (count <> 0)%nat by (intros ->; apply Hne; reflexivity).
      cbn [backlog]. rewrite length_skipn. lia.
Qed.

Lemma deliver_nonempty count pending bs rest :
  deliver count pending = (RBytes bs, rest) -> (0 < count)%nat -> bs <> [].
Proof.
  induction pending as [| ev pending IH]; cbn [deliver]; [discriminate |].
  destruct ev as [l | e |]; [| discriminate | discriminate].
  destruct l as [| x l]; [exact IH |].
  destruct (Nat.leb_spec (length (x :: l)) count) as [Hle | Hgt];
    intros H; injection H as <- <-; intros Hc.
  - discriminate.
  - destruct count; [lia | discriminate].
Qed.

(** What one [read] asking for [count > 0] bytes does. *)
Lemma sys_read_spec fd mem off count p rv mem' p' :
  sys_read fd mem off count p = (rv, mem', p') -> 0 < count ->
  calls p' = calls p ++ [(SysRead fd off count rv, errno p')] /\
  closes p' = closes p /\
  ((0 < rv <= count /\ errno p' = errno p /\
    (backlog (inbound p') < backlog (inbound p))%nat /\
    exists bs, len bs = rv /\ mem' = store mem off bs) \/
   (rv = 0 /\ mem' = mem /\ errno p' = errno p) \/
   (rv = -1 /\ mem' = mem)).
Proof.
  unfold sys_read. intros H Hc.
  destruct (Z.eqb_spec count 0) as [E | _]; [lia |].
  destruct (deliver (nat_of count) (inbound p)) as [[bs | | e] rest] eqn:D;
    injection H as <- <- <-; fields; (split; [reflexivity |]);
    (split; [reflexivity |]).
  - left. destruct (deliver_data _ _ _ _ D) as [Hle Hlt].
    assert (Hne : bs <> []).
    { apply (deliver_nonempty _ _ _ _ D). unfold nat_of. lia. }
    specialize (Hlt Hne). unfold len, nat_of in *.
    repeat split; try lia.
    + destruct bs; [contradiction | cbn [length]; lia].
    + exists bs. split; reflexivity.
  - right. left. repeat split.
  - right. right. repeat split.
Qed.

(** ** [bfddp_buf_read] on a well-formed buffer *)

Lemma full_iff b : BFDDP_BUF_FULL b = true <-> position b = total b.
Proof. unfold BFDDP_BUF_FULL. apply Z.eqb_eq. Qed.

Lemma buf_read_full sock b p :
  position b = total b -> bfddp_buf_read sock b p = (0, b, p).
Proof.
  intros H. unfold bfddp_buf_read.
  apply full_iff in H. rewrite H. reflexivity.
Qed.

Lemma buf_read_cases sock b p rv b' p' :
  buf_ok b -> position b < total b ->
  bfddp_buf_read sock b p = (rv, b', p') ->
  closes p' = closes p /\
  ((* data *)
   (0 < rv <= total b - position b /\
    calls p' =
      calls p ++ [(SysRead sock (position b) (total b - position b) rv,
                   errno p)] /\
    errno p' = errno p /\
    (backlog (inbound p') < backlog (inbound p))%nat /\
    buf_ok b' /\ total b' = total b /\ packet b' = packet b /\
    position b' = position b + rv /\
    slice (buf b') 0 (position b) = slice (buf b) 0 (position b)) \/
   (* closed *)
   (rv = -1 /\ b' = b /\ errno p' = 0 /\
    calls p' =
      calls p ++ [(SysRead sock (position b) (total b - position b) 0,
                   errno p)]) \/
   (* failed *)
   (b' = b /\
    rv = (if is_transient (errno p') then 0 else -1) /\
    calls p' =
      calls p ++ [(SysRead sock (position b) (total b - position b) (-1),
                   errno p')])).
Proof.
  intros [(Hr & Hp0 & Hpp & Hpt) [Hlen Hsz]] Hlt. unfold bfddp_buf_read.
  destruct (BFDDP_BUF_FULL b) eqn:F; [apply full_iff in F; lia |].
  destruct (sys_read sock (buf b) (position b) (remaining b) p)
    as [[r mem] p1] eqn:R.
  apply sys_read_spec in R; [| lia]. rewrite Hr in R.
  destruct R as (Hcalls & Hcl & [(Hrv & He & Hbl & bs & Hbs & Hmem)
                                | [(-> & -> & He) | (-> & ->)]]).
  - destruct (Z.eqb_spec r 0); [lia |]. destruct (Z.eqb_spec r (-1)); [lia |].
    intros H; injection H as <- <- <-. split; [exact Hcl |]. left.
    rewrite Hr.
    rewrite !sz_small
      by (apply (is_size_between 0 (total b)); auto; lia).
    rewrite He in Hcalls. unfold buf_ok, cursor_inv, storage_ok; fields.
    repeat split; try lia; try assumption; try apply Hsz; subst mem.
    + unfold len in *. rewrite length_store; unfold len; lia.
    + apply store_below. lia.
  - cbn [Z.eqb]. intros H; injection H as <- <- <-.
    split; [exact Hcl |]. right. left. fields. rewrite He in Hcalls.
    destruct b; repeat split; try reflexivity. exact Hcalls.
  - cbn [Z.eqb]. intros H. split.
    + destruct (is_transient (errno p1)); injection H as <- <- <-; exact Hcl.
    + right. right.
      destruct (is_transient (errno p1)) eqn:T; injection H as <- <- <-;
        rewrite T; destruct b; repeat split; try reflexivity; exact Hcalls.
Qed.

(** A [bfddp_buf_read] that returns data shortens what is pending, whatever
    the state of the buffer. *)
Lemma buf_read_progress sock b p rv b' p' :
  bfddp_buf_read sock b p = (rv, b', p') -> 0 < rv ->
  (backlog (inbound p') < backlog (inbound p))%nat.
Proof.
  unfold bfddp_buf_read, sys_read.
  destruct (BFDDP_BUF_FULL b); [intros H; injection H as <- _ _; lia |].
  destruct (Z.eqb_spec (remaining b) 0) as [_ | _];
    [cbn [Z.eqb]; intros H; injection H as <- _ _; lia |].
  destruct (deliver (nat_of (remaining b)) (inbound p))
    as [[bs | | e] rest] eqn:D.
  - destruct (Z.eqb_spec (len bs) 0); [intros H; injection H as <- _ _; lia |].
    destruct (Z.eqb_spec (len bs) (-1)); [unfold len in *; lia |].
    intros H _; injection H as _ _ <-. fields.
    apply (deliver_data _ _ _ _ D). intros ->. unfold len in *. cbn in *. lia.
  - cbn [Z.eqb]. intros H; injection H as <- _ _; lia.
  - cbn [Z.eqb].
    destruct (is_transient _); intros H; injection H as <- _ _; lia.
Qed.

(** ** The loop of [bfddp_read] *)

(** The loop ends: fuel above the backlog is never used up. *)
Lemma read_loop_returns fuel : forall sock b t p,
  (backlog (inbound p) < fuel)%nat ->
  exists r, bfddp_read_loop fuel sock b t p = Some r.
Proof.
  induction fuel as [| fuel IH]; intros sock b t p Hf; [lia |].
  cbn [bfddp_read_loop].
  destruct (bfddp_buf_read sock b p) as [[rv b1] p1] eqn:R.
  destruct (rv =? -1); [destruct (t =? 0); eauto |].
  destruct (BFDDP_BUF_FULL b1); [eauto |].
  destruct (rv =? 0); [eauto |].
  destruct (Z.ltb_spec 0 rv) as [Hpos | _]; [| eauto].
  apply IH. apply (buf_read_progress _ _ _ _ _ _ R) in Hpos. lia.
Qed.

Lemma received_cons s tr : received (s :: tr) = read_count s + received tr.
Proof. reflexivity. Qed.

Lemma data_reads_received fd tot e pos tr pos' :
  data_reads fd tot e pos tr pos' -> received tr = pos' - pos.
Proof.
  induction 1 as [pos | pos n tr pos' Hlt Hn _ IH].
  - cbn. lia.
  - rewrite received_cons, IH. unfold read_count. cbn [fst]. lia.
Qed.

Lemma data_reads_bounds fd tot e pos tr pos' :
  data_reads fd tot e pos tr pos' -> pos <= tot -> pos <= pos' <= tot.
Proof. induction 1; intros; lia. Qed.

(** What the loop does from a well-formed buffer: a run of reads that return
    data, then one of the four endings. *)
Lemma read_loop_spec fuel : forall sock b t p rv b' p',
  buf_ok b ->
  bfddp_read_loop fuel sock b t p = Some (rv, b', p') ->
  exists tr last,
    calls p' = calls p ++ tr ++ last /\
    data_reads sock (total b) (errno p) (position b) tr (position b') /\
    loop_end sock (total b) (position b') (t + received tr) (errno p)
             last (errno p') rv /\
    buf_ok b' /\ total b' = total b /\ packet b' = packet b /\
    slice (buf b') 0 (position b) = slice (buf b) 0 (position b) /\
    closes p' = closes p.
Proof.
  induction fuel as [| fuel IH]; intros sock b t p rv b' p' Hok;
    [discriminate |].
  cbn [bfddp_read_loop].
  assert (Hpt : 0 <= position b <= total b)
    by (destruct Hok as [(_ & ? & ? & ?) _]; lia).
  destruct (Z.eq_dec (position b) (total b)) as [Hfull | Hnf].
  - (* the buffer is full already *)
    rewrite buf_read_full by exact Hfull. cbn [Z.eqb].
    apply full_iff in Hfull. rewrite Hfull. intros H; injection H as <- <- <-.
    exists [], []. rewrite !app_nil_r. cbn [received fold_right].
    rewrite Z.add_0_r. apply full_iff in Hfull.
    repeat split; try apply Hok; try constructor; assumption.
  - destruct (bfddp_buf_read sock b p) as [[r b1] p1] eqn:R.
    apply buf_read_cases in R; [| exact Hok | lia].
    destruct R as (Hcl & [(Hr & Hcalls & He & _ & Hok1 & Ht1 & Hpk1 & Hpos1
                           & Hsl1)
                         | [(-> & -> & He & Hcalls)
                           | (-> & -> & Hcalls)]]).
    + (* data *)
      destruct (Z.eqb_spec r (-1)); [lia |].
      destruct (BFDDP_BUF_FULL b1) eqn:F.
      * intros H; injection H as <- <- <-. apply full_iff in F.
        exists [(SysRead sock (position b) (total b - position b) r,
                 errno p)], [].
        rewrite app_nil_r, He, Hpos1.
        replace (t + received _) with (t + r)
          by (cbn; unfold read_count; cbn [fst]; lia).
        repeat split; try apply Hok1; try assumption.
        -- apply reads_more; [lia | lia | apply reads_none].
        -- apply end_full. lia.
      * destruct (Z.eqb_spec r 0); [lia |].
        destruct (Z.ltb_spec 0 r); [| lia].
        intros HL. apply IH in HL; [| exact Hok1].
        destruct HL as (tr & last & Hc & Hdr & Hend & Hok' & Ht' & Hpk' & Hsl'
                       & Hcl').
        exists ((SysRead sock (position b) (total b - position b) r,
                 errno p) :: tr), last.
        rewrite Ht1, He, Hpos1 in *.
        rewrite received_cons.
        replace (read_count _) with r by (unfold read_count; cbn [fst]; lia).
        rewrite Z.add_assoc.
        repeat split; try apply Hok'; try congruence.
        -- rewrite Hc, Hcalls, <- app_assoc. reflexivity.
        -- apply reads_more; [lia | lia | exact Hdr].
        -- rewrite <- Hsl1, <- (slice_slice (buf b') _ (position b + r))
             by lia.
           rewrite Hsl', slice_slice by lia. reflexivity.
    + (* closed *)
      cbn [Z.eqb]. intros H.
      assert (Hres : rv = (if t =? 0 then -1 else t) /\ b' = b /\ p' = p1)
        by (destruct (t =? 0); injection H as <- <- <-; auto).
      destruct Hres as (-> & -> & ->).
      exists [], [(SysRead sock (position b) (total b - position b) 0,
                   errno p)].
      cbn [received fold_right app]. rewrite Z.add_0_r, He.
      repeat split; try apply Hok; try assumption;
        [apply reads_none | apply end_closed; lia].
    + (* failed *)
      intros H.
      exists [], [(SysRead sock (position b) (total b - position b) (-1),
                   errno p1)].
      cbn [received fold_right app]. rewrite Z.add_0_r.
      destruct (is_transient (errno p1)) eqn:T; cbn [Z.eqb] in H.
      * rewrite Z.add_0_r in H.
        destruct (BFDDP_BUF_FULL b) eqn:F; [apply full_iff in F; lia |].
        injection H as <- <- <-.
        repeat split; try apply Hok; try assumption;
          [apply reads_none | apply end_transient; [lia | exact T]].
      * assert (Hres : rv = (if t =? 0 then -1 else t) /\ b' = b /\ p' = p1)
          by (destruct (t =? 0); injection H as <- <- <-; auto).
        destruct Hres as (-> & -> & ->).
        repeat split; try apply Hok; try assumption;
          [apply reads_none | apply end_hard; [lia | exact T]].
Qed.

(** ** [bfddp_read] *)

Lemma read_guard_ok abi b : buf_ok b -> buf_ok (read_guard abi b).
Proof.
  intros H. unfold read_guard.
  destruct (remaining b <=? sizeof_message abi); [apply pulldown_ok |]; exact H.
Qed.

Lemma read_guard_idem abi b :
  buf_ok b -> remaining b <= sizeof_message abi ->
  read_guard abi (bfddp_buf_pulldown b) = read_guard abi b.
Proof.
  intros H Hle. unfold read_guard at 2.
  destruct (Z.leb_spec (remaining b) (sizeof_message abi)); [| lia].
  unfold read_guard.
  destruct (_ <=? _); [apply pulldown_idem; exact H | reflexivity].
Qed.

(** [bfddp_read] returns, from every context and process state. *)
Lemma bfddp_read_returns abi c p :
  exists rv c' p', bfddp_read abi c p = Some (rv, c', p').
Proof.
  unfold bfddp_read.
  destruct (read_loop_returns (S (backlog (inbound p))) (sock c)
              (read_guard abi (inbuf c)) 0 p) as [[[rv b] p'] E]; [lia |].
  rewrite E. eauto.
Qed.

Lemma bfddp_read_spec abi c p rv c' p' :
  buf_ok (inbuf c) ->
  bfddp_read abi c p = Some (rv, c', p') ->
  let b0 := read_guard abi (inbuf c) in
  let b' := inbuf c' in
  c' = set_inbuf c b' /\
  exists tr last,
    calls p' = calls p ++ tr ++ last /\
    data_reads (sock c) (total b0) (errno p) (position b0) tr (position b') /\
    loop_end (sock c) (total b0) (position b') (received tr) (errno p)
             last (errno p') rv /\
    buf_ok b' /\ total b' = total b0 /\ packet b' = packet b0 /\
    slice (buf b') 0 (position b0) = slice (buf b0) 0 (position b0) /\
    closes p' = closes p.
Proof.
  intros Hok. unfold bfddp_read.
  destruct (bfddp_read_loop _ _ _ _ _) as [[[r b] q] |] eqn:L; [| discriminate].
  intros H; injection H as <- <- <-. cbn zeta. fields.
  split; [reflexivity |].
  apply read_loop_spec in L; [| apply read_guard_ok; exact Hok].
  destruct L as (tr & last & Hc & Hd & He & Hrest).
  rewrite Z.add_0_l in He. exists tr, last. auto.
Qed.

(** ** Reading the log of one call *)

Lemma data_reads_positive fd tot e pos tr pos' :
  data_reads fd tot e pos tr pos' -> Forall (fun s => 0 < read_count s) tr.
Proof.
  induction 1; constructor; [| assumption].
  unfold read_count. cbn [fst]. lia.
Qed.

Lemma data_reads_within fd tot e pos tr pos' :
  data_reads fd tot e pos tr pos' -> 0 <= pos ->
  Forall (read_within fd tot) tr.
Proof.
  induction 1 as [| pos n tr pos' Hlt Hn _ IH]; intros Hp; constructor.
  - exists pos, (tot - pos), n, e. repeat split; lia.
  - apply IH. lia.
Qed.

Lemma loop_end_within fd tot pos t e0 last e rv :
  loop_end fd tot pos t e0 last e rv -> 0 <= pos ->
  Forall (read_within fd tot) last.
Proof.
  intros H Hp. destruct H; repeat constructor;
    eexists _, _, _, _; (split; [reflexivity |]); lia.
Qed.

Lemma loop_end_short fd tot pos t e0 last e rv :
  loop_end fd tot pos t e0 last e rv -> (length last <= 1)%nat.
Proof. destruct 1; cbn; lia. Qed.

(** A call that returned no data, found in a log made of calls that returned
    data followed by at most one more call, is that last call. *)
Lemma locate_last (pre post tr last : list (syscall * Z)) x :
  Forall (fun s => 0 < read_count s) tr -> read_count x = 0 ->
  (length last <= 1)%nat ->
  pre ++ x :: post = tr ++ last ->
  pre = tr /\ last = [x] /\ post = [].
Proof.
  intros Htr Hx Hlast. revert pre.
  induction Htr as [| a tr Ha _ IH]; intros pre E.
  - cbn [app] in E. subst last.
    destruct pre as [| y pre]; cbn [app length] in *.
    + destruct post; cbn [length] in *; [auto | lia].
    + rewrite length_app in Hlast. cbn [length] in Hlast. lia.
  - destruct pre as [| y pre]; cbn [app] in E; injection E as -> E.
    + lia.
    + destruct (IH _ E) as (-> & -> & ->). auto.
Qed.

(** Closes [buf_ok] and [ctx_ok] goals on concrete buffers. *)
Ltac concrete_ok :=
  unfold ctx_ok, ctx_inv, buf_ok, cursor_inv, storage_ok, is_size, SIZE_WIDTH;
  cbn; repeat split; lia.

(** ** Compaction *)

(** C4.  On a buffer that satisfies the cursor invariant, [bfddp_read_finish]
    leaves at offset 0 the bytes that were in [[packet, position)], unchanged;
    afterwards [position] is the old [position - packet], [packet] is 0 and
    [remaining] is [total - position]. *)
Theorem bfddp_read_finish_compacts c :
  buf_ok (inbuf c) ->
  let b := inbuf c in
  let b' := inbuf (bfddp_read_finish c) in
  slice (buf b') 0 (position b') = slice (buf b) (packet b) (position b) /\
  position b' = position b - packet b /\
  packet b' = 0 /\
  remaining b' = total b' - position b' /\
  total b' = total b.
Proof.
  intros Hok b b'. subst b b'. unfold bfddp_read_finish. fields.
  split; [apply pulldown_contents; exact Hok |].
  rewrite pulldown_unfold by exact Hok. fields. repeat split; reflexivity.
Qed.

Lemma bfddp_read_finish_compacts_witness :
  buf_ok (inbuf small_ctx) /\
  let b := inbuf small_ctx in
  let b' := inbuf (bfddp_read_finish small_ctx) in
  slice (buf b') 0 (position b') = slice (buf b) (packet b) (position b) /\
  position b' = position b - packet b /\
  packet b' = 0 /\
  remaining b' = total b' - position b' /\
  total b' = total b.
Proof.
  assert (H : buf_ok (inbuf small_ctx)) by concrete_ok.
  split; [exact H | exact (bfddp_read_finish_compacts small_ctx H)].
Defined.

Example read_finish_small :
  inbuf (bfddp_read_finish small_ctx) =
  mk_buf ["c"; "d"; "e"; "d"; "e"; "000"; "000"; "000"]%byte 8 3 5 0.
Proof. reflexivity. Qed.

(** C7.  Compaction is idempotent: on a buffer that satisfies the cursor
    invariant a second [bfddp_read_finish] changes nothing, neither the
    contents nor a cursor; and a call with [packet == 0] changes nothing. *)
Theorem bfddp_read_finish_idempotent c :
  buf_ok (inbuf c) ->
  bfddp_read_finish (bfddp_read_finish c) = bfddp_read_finish c /\
  (packet (inbuf c) = 0 -> bfddp_read_finish c = c).
Proof.
  intros Hok. unfold bfddp_read_finish, set_inbuf. fields. split.
  - rewrite pulldown_idem by exact Hok. reflexivity.
  - intros E. rewrite pulldown_packet0 by assumption. destruct c; reflexivity.
Qed.

Lemma bfddp_read_finish_idempotent_witness :
  buf_ok (inbuf small_ctx) /\
  bfddp_read_finish (bfddp_read_finish small_ctx) =
  bfddp_read_finish small_ctx /\
  (packet (inbuf small_ctx) = 0 -> bfddp_read_finish small_ctx = small_ctx).
Proof.
  assert (H : buf_ok (inbuf small_ctx)) by concrete_ok.
  split; [exact H | exact (bfddp_read_finish_idempotent small_ctx H)].
Defined.

(** ** [bfddp_new] *)

Lemma malloc_len junk size mem :
  malloc junk size = Some mem -> 0 <= size -> len mem = size.
Proof.
  unfold malloc, len, nat_of. destruct junk; [| discriminate].
  intros H; injection H as <-. rewrite length_map, length_seq. lia.
Qed.

(** The clamp of [bfddp_new]. *)
Lemma clamp_max n : (if n <=? 4096 then 4096 else n) = Z.max 4096 n.
Proof. destruct (Z.leb_spec n 4096); lia. Qed.

Lemma bfddp_new_inv h inbuflen outbuflen c :
  bfddp_new h inbuflen outbuflen = Some c ->
  exists inmem outmem,
    malloc (malloc_in h) (Z.max 4096 inbuflen) = Some inmem /\
    malloc (malloc_out h) (Z.max 4096 outbuflen) = Some outmem /\
    c = mk_ctx 0 false
          (mk_buf inmem (Z.max 4096 inbuflen) 0 (Z.max 4096 inbuflen) 0)
          (mk_buf outmem (Z.max 4096 outbuflen) 0 (Z.max 4096 outbuflen) 0).
Proof.
  unfold bfddp_new. rewrite !clamp_max.
  destruct (calloc_ctx h); [| discriminate]. cbn [negb].
  destruct (malloc (malloc_in h) _) as [inmem |]; [| discriminate].
  destruct (malloc (malloc_out h) _) as [outmem |]; [| discriminate].
  intros H; injection H as <-. eauto.
Qed.

(** C8.  A successful [bfddp_new] gives both buffers a capacity of at least
    4096 bytes: a request below 4096 is raised to 4096, a request of 4096 or
    more is used as given, and the storage allocated has that many bytes. *)
Theorem bfddp_new_capacity h inbuflen outbuflen c :
  bfddp_new h inbuflen outbuflen = Some c ->
  4096 <= total (inbuf c) /\ 4096 <= total (outbuf c) /\
  (inbuflen < 4096 -> total (inbuf c) = 4096) /\
  (outbuflen < 4096 -> total (outbuf c) = 4096) /\
  (4096 <= inbuflen -> total (inbuf c) = inbuflen) /\
  (4096 <= outbuflen -> total (outbuf c) = outbuflen) /\
  len (buf (inbuf c)) = total (inbuf c) /\
  len (buf (outbuf c)) = total (outbuf c).
Proof.
  intros H. apply bfddp_new_inv in H.
  destruct H as (inmem & outmem & Hin & Hout & ->). fields.
  apply malloc_len in Hin; [| lia]. apply malloc_len in Hout; [| lia].
  repeat split; lia.
Qed.

Lemma bfddp_new_capacity_witness :
  exists c,
    bfddp_new zero_heap 100 100 = Some c /\
    total (inbuf c) = 4096 /\ total (outbuf c) = 4096 /\
    len (buf (inbuf c)) = 4096 /\ len (buf (outbuf c)) = 4096.
Proof.
  destruct (bfddp_new zero_heap 100 100) as [c |] eqn:E.
  - exists c. split; [reflexivity |].
    destruct (bfddp_new_capacity zero_heap 100 100 c E)
      as (_ & _ & Hi & Ho & _ & _ & Li & Lo).
    rewrite Li, Lo. rewrite Hi, Ho by lia. repeat split; reflexivity.
  - vm_compute in E. discriminate E.
Defined.

(** With a heap that grants the three requests [bfddp_new] succeeds. *)
Lemma bfddp_new_succeeds h inbuflen outbuflen f g :
  calloc_ctx h = true -> malloc_in h = Some f -> malloc_out h = Some g ->
  exists c, bfddp_new h inbuflen outbuflen = Some c.
Proof.
  intros Hc Hi Ho. unfold bfddp_new, malloc. rewrite Hc, Hi, Ho. cbn. eauto.
Qed.

(** ** The last call of one [bfddp_read] *)

Lemma read_guard_total abi b : total (read_guard abi b) = total b.
Proof.
  unfold read_guard, bfddp_buf_pulldown.
  destruct (_ <=? _); [destruct (_ =? _) |]; reflexivity.
Qed.

(** In the log of one [bfddp_read], a call that returned no data is the last
    one, and it decides how the call ends. *)
Lemma bfddp_read_last_call abi c p rv c' p' pre x post :
  buf_ok (inbuf c) ->
  bfddp_read abi c p = Some (rv, c', p') ->
  calls p' = calls p ++ pre ++ x :: post -> read_count x = 0 ->
  post = [] /\ 0 <= received pre /\
  loop_end (sock c) (total (inbuf c)) (position (inbuf c')) (received pre)
           (errno p) [x] (errno p') rv.
Proof.
  intros Hok E Hcalls Hx.
  apply bfddp_read_spec in E; [| exact Hok]. cbn zeta in E.
  destruct E as (_ & tr & last & Hc & Hd & He & _).
  rewrite read_guard_total in *.
  rewrite Hc in Hcalls. apply app_inv_head in Hcalls. symmetry in Hcalls.
  apply locate_last in Hcalls;
    [| eapply data_reads_positive; eassumption | exact Hx
     | eapply loop_end_short; eassumption].
  destruct Hcalls as (-> & -> & ->).
  split; [reflexivity |]. split; [| exact He].
  rewrite (data_reads_received _ _ _ _ _ _ Hd).
  assert (position (read_guard abi (inbuf c)) <= total (inbuf c)).
  { rewrite <- (read_guard_total abi). apply read_guard_ok, Hok. }
  apply data_reads_bounds in Hd; lia.
Qed.

(** ** The peer closes the connection *)

Lemma deliver_eof count pending rest :
  deliver count pending = (REof, rest) -> exists tl, rest = Hangup :: tl.
Proof.
  induction pending as [| ev pending IH]; cbn [deliver]; [discriminate |].
  destruct ev as [l | e |].
  - destruct l as [| x l]; [exact IH |].
    destruct (_ <=? _)%nat; discriminate.
  - discriminate.
  - intros H; injection H as <-. eauto.
Qed.

(** One [bfddp_buf_read]: no call when the buffer is full, one [read]
    otherwise; a [read] that returned 0 makes [bfddp_buf_read] return -1 and
    leaves the closed connection pending. *)
Lemma buf_read_log sock b p rv b' p' :
  buf_ok b -> bfddp_buf_read sock b p = (rv, b', p') ->
  (position b = total b /\ p' = p) \/
  (exists off count r e,
     calls p' = calls p ++ [(SysRead sock off count r, e)] /\
     (r = 0 -> rv = -1 /\ exists tl, inbound p' = Hangup :: tl)).
Proof.
  intros Hok.
  destruct (Z.eq_dec (position b) (total b)) as [Hfull | Hnf].
  { rewrite buf_read_full by exact Hfull. intros E; injection E as _ _ <-.
    left. auto. }
  destruct Hok as [(Hr & Hp0 & Hpp & Hpt) _].
  unfold bfddp_buf_read, sys_read.
  destruct (BFDDP_BUF_FULL b) eqn:F; [apply full_iff in F; lia |].
  destruct (Z.eqb_spec (remaining b) 0); [lia |].
  destruct (deliver (nat_of (remaining b)) (inbound p)) as [r rest] eqn:D.
  destruct r as [bs | | e].
  - assert (Hne : bs <> [])
      by (apply (deliver_nonempty _ _ _ _ D); unfold nat_of; lia).
    assert (Hlen : 0 < len bs).
    { destruct bs; [contradiction |]. unfold len. cbn [length]. lia. }
    destruct (Z.eqb_spec (len bs) 0); [lia |].
    destruct (Z.eqb_spec (len bs) (-1)); [lia |].
    intros E; injection E as <- <- <-. right. fields.
    eexists _, _, _, _. split; [reflexivity | intros; lia].
  - apply deliver_eof in D. cbn [Z.eqb].
    intros E; injection E as <- <- <-. right. fields.
    eexists _, _, _, _. split; [reflexivity | auto].
  - cbn [Z.eqb Pos.eqb]. fields.
    destruct (is_transient e); intros E; injection E as <- <- <-; right;
      fields; eexists _, _, _, _; (split; [reflexivity | intros; lia]).
Qed.

(** When the last call of the loop is a [read] that returned 0, the closed
    connection is still what the socket has pending. *)
Lemma read_loop_closed fuel : forall sock b t p rv b' p' l fd off count e,
  buf_ok b ->
  bfddp_read_loop fuel sock b t p = Some (rv, b', p') ->
  calls p' = l ++ [(SysRead fd off count 0, e)] ->
  (length (calls p) <= length l)%nat ->
  exists tl, inbound p' = Hangup :: tl.
Proof.
  induction fuel as [| fuel IH];
    intros sock b t p rv b' p' l fd off count e Hok; [discriminate |].
  cbn [bfddp_read_loop].
  destruct (bfddp_buf_read sock b p) as [[r b1] p1] eqn:R.
  assert (Hok1 : buf_ok b1).
  { destruct (Z.eq_dec (position b) (total b)) as [Hfull | Hnf].
    - rewrite buf_read_full in R by exact Hfull. injection R as _ <- _.
      exact Hok.
    - assert (Hlt : position b < total b)
        by (destruct Hok as [(_ & ? & ? & ?) _]; lia).
      destruct (buf_read_cases _ _ _ _ _ _ Hok Hlt R)
        as (_ & [(_ & _ & _ & _ & H & _) | [(_ & -> & _) | (-> & _)]]);
        assumption. }
  assert (Hstop : p' = p1 ->
                  calls p' = l ++ [(SysRead fd off count 0, e)] ->
                  (length (calls p) <= length l)%nat ->
                  exists tl, inbound p' = Hangup :: tl).
  { intros -> Hc Hl.
    destruct (buf_read_log _ _ _ _ _ _ Hok R)
      as [(_ & ->) | (o & n & r0 & e0 & Hc1 & Hz)].
    - rewrite Hc, length_app in Hl. cbn [length] in Hl. lia.
    - rewrite Hc1 in Hc. apply app_inj_tail in Hc. destruct Hc as [_ Hs].
      injection Hs as _ _ _ -> _. apply Hz. reflexivity. }
  destruct (Z.eqb_spec r (-1));
    [destruct (t =? 0); intros E; injection E as _ _ <-; apply Hstop;
     reflexivity |].
  destruct (BFDDP_BUF_FULL b1);
    [intros E; injection E as _ _ <-; apply Hstop; reflexivity |].
  destruct (Z.eqb_spec r 0);
    [intros E; injection E as _ _ <-; apply Hstop; reflexivity |].
  destruct (0 <? r);
    [| intros E; injection E as _ _ <-; apply Hstop; reflexivity].
  intros E Hc Hl.
  apply (IH _ _ _ _ _ _ _ l fd off count e Hok1 E Hc).
  apply read_loop_spec in E; [| exact Hok1].
  destruct E as (tr & last & Hc' & _).
  destruct (buf_read_log _ _ _ _ _ _ Hok R)
    as [(_ & ->) | (o & cnt0 & r0 & e0 & Hc1 & Hz)]; [exact Hl |].
  assert (Hlen : (length (calls p') = length l + 1)%nat)
    by (rewrite Hc, length_app; reflexivity).
  rewrite Hc', Hc1, !length_app in Hlen. cbn [length] in Hlen.
  rewrite Hc1, length_app. cbn [length].
  destruct (Nat.eq_dec (length l) (length (calls p))) as [Heq | Hne];
    [| lia].
  exfalso.
  assert (Hnil : tr ++ last = [])
    by (apply length_zero_iff_nil; rewrite length_app; lia).
  rewrite Hnil, app_nil_r, Hc1 in Hc'. rewrite Hc' in Hc.
  apply app_inj_tail in Hc. destruct Hc as [_ Hs].
  injection Hs as _ _ _ -> _. destruct (Hz eq_refl) as [Hr _]. contradiction.
Qed.

(** With the closed connection pending and room in the buffer, [bfddp_read]
    returns -1 with [errno] 0, and the closed connection stays pending. *)
Lemma read_when_closed abi c q tl :
  buf_ok (inbuf c) -> position (inbuf c) < total (inbuf c) ->
  inbound q = Hangup :: tl ->
  exists c' q',
    bfddp_read abi c q = Some (-1, c', q') /\
    errno q' = 0 /\ inbound q' = inbound q.
Proof.
  intros Hok Hlt Hin.
  assert (Hg : buf_ok (read_guard abi (inbuf c)))
    by (apply read_guard_ok, Hok).
  assert (Hroom : position (read_guard abi (inbuf c))
                  < total (read_guard abi (inbuf c))).
  { rewrite read_guard_total. unfold read_guard.
    destruct (_ <=? _); [| exact Hlt].
    rewrite pulldown_unfold by exact Hok. fields.
    destruct Hok as [(_ & ? & ? & ?) _]. lia. }
  unfold bfddp_read. cbn [bfddp_read_loop].
  destruct Hg as [(Hr & _) _].
  unfold bfddp_buf_read, sys_read.
  destruct (BFDDP_BUF_FULL _) eqn:F; [apply full_iff in F; lia |].
  destruct (Z.eqb_spec (remaining (read_guard abi (inbuf c))) 0); [lia |].
  rewrite Hin. cbn [deliver Z.eqb Pos.eqb]. fields.
  eexists _, _. split; [reflexivity |]. fields. auto.
Qed.

(** C3, as amended.  When a [read] of the call returns 0 bytes, that [read]
    is the last system call of [bfddp_read] and [errno] is 0 afterwards.  If
    no byte was accumulated before it in the call, [bfddp_read] returns -1;
    if bytes were accumulated, it returns their number.  It never returns 0
    then.  The close is reported by the next call: a [bfddp_read] on the
    context as this call left it, with the socket's input as this call left
    it, returns -1 with [errno] 0 and leaves that input as it is.  In the
    would-block outcome [bfddp_read] returns the number of bytes accumulated
    (possibly 0) and [errno] is the non-zero [errno] of the [read]. *)
Theorem bfddp_read_peer_closed abi c p :
  buf_ok (inbuf c) ->
  exists rv c' p',
    bfddp_read abi c p = Some (rv, c', p') /\
    (forall pre fd off count e post,
       calls p' = calls p ++ pre ++ (SysRead fd off count 0, e) :: post ->
       post = [] /\ errno p' = 0 /\
       (received pre = 0 -> rv = -1) /\
       (0 < received pre -> rv = received pre) /\
       rv <> 0 /\
       (forall q,
          inbound q = inbound p' ->
          exists c'' q',
            bfddp_read abi c' q = Some (-1, c'', q') /\
            errno q' = 0 /\ inbound q' = inbound q)) /\
    (forall pre fd off count e post,
       calls p' = calls p ++ pre ++ (SysRead fd off count (-1), e) :: post ->
       is_transient e = true ->
       post = [] /\ errno p' = e /\ e <> 0 /\ rv = received pre /\ 0 <= rv).
Proof.
  intros Hok.
  destruct (bfddp_read_returns abi c p) as (rv & c' & p' & E).
  exists rv, c', p'. split; [exact E |]. split.
  - intros pre fd off count e post Hcalls.
    destruct (bfddp_read_last_call _ _ _ _ _ _ _ _ _ Hok E Hcalls eq_refl)
      as (Hpost & Hge & Hend).
    split; [exact Hpost |].
    pose proof (bfddp_read_spec _ _ _ _ _ _ Hok E) as S. cbn zeta in S.
    destruct S as (_ & _ & _ & _ & _ & _ & Hok' & Ht' & _).
    rewrite read_guard_total in Ht'.
    assert (Htl : exists tl, inbound p' = Hangup :: tl).
    { revert E. unfold bfddp_read.
      destruct (bfddp_read_loop _ _ _ _ _) as [[[r b] q] |] eqn:L;
        [| discriminate].
      intros E; injection E as _ _ <-.
      subst post. rewrite app_assoc in Hcalls.
      apply (read_loop_closed _ _ _ _ _ _ _ _ _ _ _ _ _
               (read_guard_ok abi _ Hok) L Hcalls).
      rewrite length_app. lia. }
    inversion Hend; subst.
    split; [reflexivity |].
    split; [| split; [| split]];
      try (destruct (Z.eqb_spec (received pre) 0); lia).
    intros q Hq. destruct Htl as [tl Htl]. rewrite Htl in Hq.
    apply (read_when_closed abi c' q tl Hok'); [lia | exact Hq].
  - intros pre fd off count e post Hcalls Ht.
    destruct (bfddp_read_last_call _ _ _ _ _ _ _ _ _ Hok E Hcalls eq_refl)
      as (Hpost & Hge & Hend).
    split; [exact Hpost |].
    inversion Hend; subst; [| congruence].
    repeat split; try lia.
    intros Hz. rewrite Hz in *. discriminate.
Qed.

(** ** A [read] fails *)

(** C6.  When a [read] of the call fails with an [errno] other than [EINTR],
    [EAGAIN] and [EWOULDBLOCK], that [read] is the last system call of
    [bfddp_read] and [errno] stays as it left it; [bfddp_read] returns -1 if
    no byte was accumulated before it in the call, and the positive number of
    bytes accumulated otherwise. *)
Theorem bfddp_read_hard_failure abi c p :
  buf_ok (inbuf c) ->
  exists rv c' p',
    bfddp_read abi c p = Some (rv, c', p') /\
    forall pre fd off count e post,
      calls p' = calls p ++ pre ++ (SysRead fd off count (-1), e) :: post ->
      is_transient e = false ->
      post = [] /\ errno p' = e /\
      (received pre = 0 -> rv = -1) /\
      (received pre <> 0 -> rv = received pre /\ 0 < rv).
Proof.
  intros Hok.
  destruct (bfddp_read_returns abi c p) as (rv & c' & p' & E).
  exists rv, c', p'. split; [exact E |].
  intros pre fd off count e post Hcalls Ht.
  destruct (bfddp_read_last_call _ _ _ _ _ _ _ _ _ Hok E Hcalls eq_refl)
    as (Hpost & Hge & Hend).
  split; [exact Hpost |].
  inversion Hend; subst; [congruence |].
  split; [reflexivity |].
  destruct (Z.eqb_spec (received pre) 0); repeat split; lia.
Qed.

Lemma bfddp_read_peer_closed_witness :
  (exists c' p',
     bfddp_read spec_abi empty_ctx (mk_proc EAGAIN [Hangup] [] []) =
     Some (-1, c', p') /\
     errno p' = 0) /\
  (exists c' p' c'' p'',
     bfddp_read spec_abi ready_ctx
       (proc_with [Arrive ["a"; "b"; "c"]%byte; Hangup]) = Some (3, c', p') /\
     errno p' = 0 /\
     bfddp_read spec_abi c' p' = Some (-1, c'', p'') /\
     errno p'' = 0 /\ inbound p'' = inbound p').
Proof.
  split.
  - assert (Hok : buf_ok (inbuf empty_ctx)) by concrete_ok.
    destruct (bfddp_read_peer_closed spec_abi empty_ctx
                (mk_proc EAGAIN [Hangup] [] []) Hok)
      as (rv & c' & p' & E & Hclosed & _).
    vm_compute in E. injection E as <- <- <-.
    do 2 eexists. split; [vm_compute; reflexivity |].
    apply (Hclosed [] 3 0 8 11 []). reflexivity.
  - assert (Hok : buf_ok (inbuf ready_ctx)) by concrete_ok.
    destruct (bfddp_read_peer_closed spec_abi ready_ctx
                (proc_with [Arrive ["a"; "b"; "c"]%byte; Hangup]) Hok)
      as (rv & c' & p' & E & Hclosed & _).
    destruct (bfddp_read spec_abi ready_ctx
                (proc_with [Arrive ["a"; "b"; "c"]%byte; Hangup]))
      as [[[rv0 c0] p0] |] eqn:E0; [| discriminate E].
    injection E as -> -> ->.
    assert (Hrv : rv = 3 /\
                  calls p' = [(SysRead 5 0 4096 3, 0);
                              (SysRead 5 3 4093 0, 0)])
      by (vm_compute in E0; injection E0 as <- _ <-; split; reflexivity).
    destruct Hrv as [-> Hcalls].
    destruct (Hclosed [(SysRead 5 0 4096 3, 0)] 5 3 4093 0 [] Hcalls)
      as (_ & He & _ & _ & _ & Hnext).
    destruct (Hnext p' eq_refl) as (c'' & p'' & En & Hen & Hin).
    exists c', p', c'', p''. auto.
Defined.

(** The claim C3 as stated fails: three bytes arrive and then the peer
    closes.  The second [read] of the call returns 0, and [bfddp_read]
    returns 3, not -1. *)
Lemma peer_close_after_data_returns_count :
  exists c' p',
    bfddp_read spec_abi ready_ctx
      (proc_with [Arrive ["a"; "b"; "c"]%byte; Hangup]) = Some (3, c', p') /\
    calls p' = [(SysRead 5 0 4096 3, 0); (SysRead 5 3 4093 0, 0)] /\
    errno p' = 0.
Proof.
  do 2 eexists. split; [vm_compute; reflexivity |]. split; reflexivity.
Qed.

(** The close is reported by the next call. *)
Example peer_close_next_call :
  exists c1 p1 c2 p2,
    bfddp_read spec_abi ready_ctx
      (proc_with [Arrive ["a"; "b"; "c"]%byte; Hangup]) = Some (3, c1, p1) /\
    bfddp_read spec_abi c1 p1 = Some (-1, c2, p2) /\ errno p2 = 0.
Proof.
  do 4 eexists. split; [vm_compute; reflexivity |].
  split; [vm_compute; reflexivity | reflexivity].
Qed.

Lemma bfddp_read_hard_failure_witness :
  (exists c' p',
     bfddp_read spec_abi empty_ctx (proc_with [Fail ECONNRESET]) =
     Some (-1, c', p') /\ errno p' = ECONNRESET) /\
  (exists c' p',
     bfddp_read spec_abi empty_ctx
       (proc_with [Arrive ["a"; "b"; "c"]%byte; Fail ECONNRESET]) =
     Some (3, c', p') /\ errno p' = ECONNRESET).
Proof.
  assert (Hok : buf_ok (inbuf empty_ctx)) by concrete_ok.
  split.
  - destruct (bfddp_read_hard_failure spec_abi empty_ctx
                (proc_with [Fail ECONNRESET]) Hok)
      as (rv & c' & p' & E & Hfail).
    vm_compute in E. injection E as <- <- <-.
    do 2 eexists. split; [vm_compute; reflexivity |].
    apply (Hfail [] 3 0 8 104 []); reflexivity.
  - destruct (bfddp_read_hard_failure spec_abi empty_ctx
                (proc_with [Arrive ["a"; "b"; "c"]%byte; Fail ECONNRESET])
                Hok)
      as (rv & c' & p' & E & Hfail).
    vm_compute in E. injection E as <- <- <-.
    do 2 eexists. split; [vm_compute; reflexivity |].
    apply (Hfail [(SysRead 3 0 8 3, 0)] 3 3 5 104 []); reflexivity.
Defined.

(** ** Where [bfddp_read] reads *)

Lemma first_read_at_log fd tot e0 pos tr pos' t last e rv :
  data_reads fd tot e0 pos tr pos' ->
  loop_end fd tot pos' t e0 last e rv ->
  first_read_at pos (tr ++ last).
Proof.
  intros Hd He. destruct Hd; [| reflexivity].
  destruct He; reflexivity.
Qed.

Lemma full_no_read fd tot e0 tr pos' t last e rv :
  data_reads fd tot e0 tot tr pos' ->
  loop_end fd tot pos' t e0 last e rv ->
  tr = [] /\ last = [] /\ pos' = tot /\ rv = t /\ e = e0.
Proof.
  intros Hd He. inversion Hd; subst; [| lia].
  inversion He; subst; try lia. auto.
Qed.

Lemma bfddp_read_after_finish abi c p :
  buf_ok (inbuf c) -> remaining (inbuf c) <= sizeof_message abi ->
  bfddp_read abi (bfddp_read_finish c) p = bfddp_read abi c p.
Proof.
  intros Hok Hle. unfold bfddp_read, bfddp_read_finish. fields.
  rewrite read_guard_idem by assumption.
  destruct (bfddp_read_loop _ _ _ _ _) as [[[rv b] q] |]; reflexivity.
Qed.

(** C5.  The [read]s of one [bfddp_read] all go into a buffer that is not
    full, each into the free space [[position, position + remaining)] as it
    is then, which lies inside the buffer.  A buffer that is full when the
    loop starts is not read into: the call returns 0 at once.  When
    [remaining] is at most [sizeof(struct bfddp_message)] on entry the buffer
    is compacted first: the call does what it does after
    [bfddp_read_finish], and its first [read] goes to the old
    [position - packet]. *)
Theorem bfddp_read_within_bounds abi c p :
  buf_ok (inbuf c) ->
  let b := inbuf c in
  exists rv c' p' tr,
    bfddp_read abi c p = Some (rv, c', p') /\
    calls p' = calls p ++ tr /\
    Forall (read_within (sock c) (total b)) tr /\
    (position (read_guard abi b) = total b -> tr = [] /\ rv = 0) /\
    (remaining b <= sizeof_message abi ->
     read_guard abi b = bfddp_buf_pulldown b /\
     bfddp_read abi (bfddp_read_finish c) p = bfddp_read abi c p /\
     first_read_at (position b - packet b) tr) /\
    (sizeof_message abi < remaining b -> first_read_at (position b) tr).
Proof.
  intros Hok b.
  destruct (bfddp_read_returns abi c p) as (rv & c' & p' & E).
  pose proof (bfddp_read_spec _ _ _ _ _ _ Hok E) as S. cbn zeta in S.
  destruct S as (_ & tr & last & Hc & Hd & He & Hok' & _).
  rewrite read_guard_total in *.
  assert (Hg : buf_ok (read_guard abi (inbuf c)))
    by (apply read_guard_ok, Hok).
  assert (Hp0 : 0 <= position (read_guard abi (inbuf c)))
    by (destruct Hg as [(_ & ? & ? & ?) _]; lia).
  assert (Hp1 : 0 <= position (inbuf c'))
    by (destruct Hok' as [(_ & ? & ? & ?) _]; lia).
  exists rv, c', p', (tr ++ last). subst b.
  split; [exact E |]. split; [exact Hc |]. split; [| split; [| split]].
  - apply Forall_app. split.
    + eapply data_reads_within; eassumption.
    + eapply loop_end_within; eassumption.
  - intros Hfull. rewrite Hfull in Hd.
    destruct (full_no_read _ _ _ _ _ _ _ _ _ Hd He) as (-> & -> & _ & -> & _).
    split; reflexivity.
  - intros Hle.
    assert (Hgd : read_guard abi (inbuf c) = bfddp_buf_pulldown (inbuf c)).
    { unfold read_guard.
      destruct (Z.leb_spec (remaining (inbuf c)) (sizeof_message abi));
        [reflexivity | lia]. }
    split; [exact Hgd |].
    split; [apply bfddp_read_after_finish; assumption |].
    rewrite Hgd, pulldown_unfold in Hd by exact Hok. fields.
    eapply first_read_at_log; eassumption.
  - intros Hgt.
    assert (Hgd : read_guard abi (inbuf c) = inbuf c).
    { unfold read_guard.
      destruct (Z.leb_spec (remaining (inbuf c)) (sizeof_message abi));
        [lia | reflexivity]. }
    rewrite Hgd in Hd. eapply first_read_at_log; eassumption.
Qed.

Lemma bfddp_read_within_bounds_witness :
  exists c' p',
    bfddp_read spec_abi full_ctx (proc_with [Arrive ["x"; "y"]%byte]) =
    Some (2, c', p') /\
    calls p' = [(SysRead 3 2 6 2, 0); (SysRead 3 4 4 (-1), EAGAIN)] /\
    Forall (read_within 3 8) (calls p').
Proof.
  assert (Hok : buf_ok (inbuf full_ctx)) by concrete_ok.
  destruct (bfddp_read_within_bounds spec_abi full_ctx
              (proc_with [Arrive ["x"; "y"]%byte]) Hok)
    as (rv & c' & p' & tr & E & Hc & Hin & _).
  vm_compute in E. injection E as <- <- <-.
  do 2 eexists. split; [vm_compute; reflexivity |].
  split; [reflexivity |].
  cbn [calls proc_with app] in Hc. rewrite Hc. exact Hin.
Defined.

(** ** [bfddp_read] appends *)

(** C10.  When [remaining] exceeds [sizeof(struct bfddp_message)] on entry,
    [bfddp_read] leaves the bytes below the old [position], the [packet]
    cursor, the capacity and the rest of the context as they were; [position]
    does not decrease; a return value that is not negative is the number of
    bytes [position] advanced by; and with the return value -1 [position] is
    unchanged. *)
Theorem bfddp_read_appends abi c p :
  buf_ok (inbuf c) -> sizeof_message abi < remaining (inbuf c) ->
  let b := inbuf c in
  exists rv c' p',
    bfddp_read abi c p = Some (rv, c', p') /\
    let b' := inbuf c' in
    slice (buf b') 0 (position b) = slice (buf b) 0 (position b) /\
    packet b' = packet b /\ total b' = total b /\
    c' = set_inbuf c b' /\
    position b <= position b' /\
    (rv = -1 \/ 0 <= rv) /\
    (0 <= rv -> position b' - position b = rv) /\
    (rv = -1 -> position b' = position b).
Proof.
  intros Hok Hgt b.
  destruct (bfddp_read_returns abi c p) as (rv & c' & p' & E).
  exists rv, c', p'. split; [exact E |].
  pose proof (bfddp_read_spec _ _ _ _ _ _ Hok E) as S. cbn zeta in S.
  assert (Hgd : read_guard abi (inbuf c) = inbuf c).
  { unfold read_guard.
    destruct (Z.leb_spec (remaining (inbuf c)) (sizeof_message abi));
      [lia | reflexivity]. }
  rewrite Hgd in S.
  destruct S as (Hc' & tr & last & _ & Hd & He & _ & Ht & Hpk & Hsl & _).
  cbn zeta. subst b.
  assert (Hpt : position (inbuf c) <= total (inbuf c)) by apply Hok.
  pose proof (data_reads_bounds _ _ _ _ _ _ Hd Hpt) as Hb.
  rewrite (data_reads_received _ _ _ _ _ _ Hd) in He.
  split; [exact Hsl |]. split; [exact Hpk |]. split; [exact Ht |].
  split; [exact Hc' |]. split; [lia |].
  destruct He;
    try destruct (Z.eqb_spec (position (inbuf c') - position (inbuf c)) 0);
    repeat split; lia.
Qed.

Lemma bfddp_read_appends_witness :
  exists c' p',
    bfddp_read tiny_abi small_ctx
      (proc_with [Arrive ["x"; "y"]%byte]) = Some (2, c', p') /\
    buf (inbuf c') = ["a"; "b"; "c"; "d"; "e"; "x"; "y"; "000"]%byte /\
    position (inbuf c') = 7 /\ packet (inbuf c') = 2.
Proof.
  assert (Hok : buf_ok (inbuf small_ctx)) by concrete_ok.
  assert (Hgt : sizeof_message tiny_abi < remaining (inbuf small_ctx))
    by (cbn; lia).
  destruct (bfddp_read_appends tiny_abi small_ctx
              (proc_with [Arrive ["x"; "y"]%byte]) Hok Hgt)
    as (rv & c' & p' & E & _ & Hpk & _ & _ & _ & _ & Hpos & _).
  vm_compute in E. injection E as <- <- <-.
  do 2 eexists. split; [vm_compute; reflexivity |].
  split; [reflexivity |]. split; [| exact Hpk].
  specialize (Hpos ltac:(lia)).
  cbn [position inbuf small_ctx small_buf] in Hpos.
  cbn [position inbuf]. lia.
Defined.

(** ** [sock_close] *)

Lemma closed_at_end_app fd pre tr :
  closed_at_end fd tr -> closed_at_end fd (pre ++ tr).
Proof.
  intros (pre' & rv & e & -> & H).
  exists (pre ++ pre'), rv, e. rewrite app_assoc. auto.
Qed.

Lemma close_attempts_spec sock failures : forall p,
  exists tr,
    calls (close_attempts sock failures p) = calls p ++ tr /\
    closed_at_end sock tr /\ forallb is_close tr = true /\
    inbound (close_attempts sock failures p) = inbound p.
Proof.
  induction failures as [| e rest IH]; intros p; cbn [close_attempts].
  - exists [(SysClose sock 0, errno p)]. fields.
    repeat split. exists [], 0, (errno p). auto.
  - destruct (Z.eqb_spec e EINTR) as [-> | Hne]; cbn [negb].
    + destruct (IH (log (SysClose sock (-1))
                      (set_errno EINTR (set_closes rest p))))
        as (tr & Hc & Hend & Hall & Hin).
      exists ((SysClose sock (-1), EINTR) :: tr). rewrite Hc, Hin. fields.
      rewrite <- app_assoc. repeat split.
      * apply (closed_at_end_app sock [_]). exact Hend.
      * cbn. exact Hall.
    + exists [(SysClose sock (-1), e)]. fields.
      repeat split. exists [], (-1), e. auto.
Qed.

(** [sock_close] issues [close] until it is not interrupted, does nothing
    else, and leaves [errno] as it found it. *)
Lemma sock_close_spec sock p :
  errno (sock_close sock p) = errno p /\
  inbound (sock_close sock p) = inbound p /\
  exists tr,
    calls (sock_close sock p) = calls p ++ tr /\
    closed_at_end sock tr /\ forallb is_close tr = true.
Proof.
  unfold sock_close. fields.
  destruct (close_attempts_spec sock (closes p) p) as (tr & Hc & He & Ha & Hi).
  repeat split; [exact Hi |]. exists tr. auto.
Qed.

(** ** [bfddp_connect] *)

Lemma sock_set_nonblock_done k fd p :
  nonblock_done k ->
  exists p',
    sock_set_nonblock k fd p = (0, p') /\ errno p' = errno p /\
    inbound p' = inbound p /\ closes p' = closes p /\
    exists tr,
      calls p' = calls p ++ tr /\
      existsb is_close tr = false /\ existsb is_socket tr = false.
Proof.
  unfold sock_set_nonblock, sys_getfl, sys_setfl, ret_of.
  intros [flags Hg H0 Hnz | flags Hg H0 Hz Hs]; rewrite Hg;
    (destruct (Z.eqb_spec flags (-1)); [lia |]).
  - destruct (Z.eqb_spec (Z.land flags O_NONBLOCK) 0); [contradiction |].
    cbn [negb]. eexists. split; [reflexivity |]. fields.
    repeat split. eexists. repeat split; reflexivity.
  - rewrite Hz, Hs. cbn [Z.eqb Pos.eqb negb andb].
    eexists. split; [reflexivity |]. fields.
    repeat split. eexists. rewrite <- app_assoc. repeat split; reflexivity.
Qed.

(** Every outcome of [bfddp_connect] leaves the two buffers alone. *)
Lemma bfddp_connect_buffers k bctx sa salen p :
  let c' := snd (fst (bfddp_connect k bctx sa salen p)) in
  inbuf c' = inbuf bctx /\ outbuf c' = outbuf bctx.
Proof.
  unfold bfddp_connect.
  destruct (sys_socket _ _ _) as [s p1].
  destruct (s =? -1); [split; reflexivity |].
  destruct (sock_set_nonblock _ _ _) as [r2 p2].
  destruct (r2 =? -1); [split; reflexivity |].
  destruct (socktcp_set_nodelay _ _ _) as [r3 p3].
  destruct (r3 =? -1); [split; reflexivity |].
  destruct (sys_connect _ _ _ _ _) as [r4 p4].
  destruct (_ && _); split; reflexivity.
Qed.

(** A log that starts with the [socket] call that returned [fd], goes on
    without another [socket] and ends with the closing of [fd]. *)
Lemma created_closed_log family fd e mid cl :
  existsb is_socket mid = false -> forallb is_close cl = true ->
  closed_at_end fd cl ->
  created_closed ((SysSocket family fd, e) :: mid ++ cl).
Proof.
  intros Hmid Hcl Hend family' fd' e' [Hin | Hin] _.
  - injection Hin as _ <- _.
    apply (closed_at_end_app fd ((SysSocket family fd, e) :: mid)), Hend.
  - apply in_app_or in Hin. destruct Hin as [Hin | Hin].
    + assert (existsb is_socket mid = true)
        by (apply existsb_exists; eexists; split; [exact Hin | reflexivity]).
      congruence.
    + rewrite forallb_forall in Hcl. apply Hcl in Hin. discriminate Hin.
Qed.

(** Closes the descriptor after the calls logged in [q], as each failure
    path of [bfddp_connect] does; [mid] are the calls between [socket] and
    [close]. *)
Ltac close_path fd mid :=
  match goal with
  | |- exists mid cl p', (_, _, sock_close fd ?q) = _ /\ _ =>
      destruct (sock_close_spec fd q) as (He & _ & cl & Hcl & Hend & Hall);
      exists mid, cl; eexists; split; [reflexivity |];
      rewrite He, Hcl; clear He Hcl;
      cbn [errno calls log set_errno set_closes set_inbound];
      split; [reflexivity |]; split; [| split; [| auto]]
  end.

(** A step after the creation of the socket fails: the log of the call. *)
Lemma connect_setup_failure k bctx sa salen p fd e :
  k_socket k = Done fd -> fd <> -1 -> setup_fails k e ->
  exists mid cl p',
    bfddp_connect k bctx sa salen p = (-1, bctx, p') /\
    errno p' = e /\
    calls p' =
      calls p ++ (SysSocket (sa_family_of sa) fd, errno p) :: mid ++ cl /\
    existsb is_socket mid = false /\
    forallb is_close cl = true /\ closed_at_end fd cl.
Proof.
  intros Hs Hfd Hf.
  unfold bfddp_connect, sys_socket. rewrite Hs. cbn [ret_of].
  destruct (Z.eqb_spec fd (-1)); [contradiction |].
  destruct Hf as [Hg | flags Hg H0 Hz Hsf | Hnb Hnd | Hnb Hnd Hc Hne].
  - unfold sock_set_nonblock, sys_getfl, ret_of. rewrite Hg.
    cbn [Z.eqb Pos.eqb negb andb].
    close_path fd [(SysGetfl fd (-1), e)].
    + rewrite <- !app_assoc. reflexivity.
    + reflexivity.
  - unfold sock_set_nonblock, sys_getfl, sys_setfl, ret_of. rewrite Hg.
    destruct (Z.eqb_spec flags (-1)); [lia |].
    rewrite Hz, Hsf. cbn [Z.eqb Pos.eqb negb andb].
    close_path fd [(SysGetfl fd flags, errno p);
                   (SysSetfl fd (Z.lor flags O_NONBLOCK) (-1), e)].
    + rewrite <- !app_assoc. reflexivity.
    + reflexivity.
  - destruct (sock_set_nonblock_done k fd
                (log (SysSocket (sa_family_of sa) fd) p) Hnb)
      as (p2 & -> & He2 & _ & _ & tr2 & Hc2 & _ & Hn2).
    cbn [Z.eqb Pos.eqb negb andb].
    unfold socktcp_set_nodelay, sys_setsockopt, ret_of.
    rewrite Hnd. cbn [Z.eqb Pos.eqb negb andb].
    close_path fd (tr2 ++ [(SysSetsockopt fd (-1), e)]).
    + rewrite Hc2. cbn [calls log]. rewrite <- !app_assoc. reflexivity.
    + rewrite existsb_app, Hn2. reflexivity.
  - destruct (sock_set_nonblock_done k fd
                (log (SysSocket (sa_family_of sa) fd) p) Hnb)
      as (p2 & -> & He2 & _ & _ & tr2 & Hc2 & _ & Hn2).
    cbn [Z.eqb Pos.eqb negb andb].
    unfold socktcp_set_nodelay, sys_setsockopt, sys_connect, ret_of.
    rewrite Hnd, Hc. cbn [Z.eqb Pos.eqb negb andb]. fields.
    destruct (Z.eqb_spec e EINPROGRESS); [contradiction |].
    cbn [Z.eqb Pos.eqb negb andb].
    close_path fd (tr2 ++ [(SysSetsockopt fd 0, errno p2);
                           (SysConnect fd sa salen (-1), e)]).
    + rewrite Hc2. cbn [calls log]. rewrite <- !app_assoc. reflexivity.
    + rewrite existsb_app, Hn2. reflexivity.
Qed.

(** C9.  When the creation of the socket or a later step (reading or setting
    the file status flags, setting [TCP_NODELAY], [connect] with an [errno]
    other than [EINPROGRESS]) fails, [bfddp_connect] returns -1, leaves the
    context as it was, returns with [errno] as the failing call left it, and
    every descriptor [socket] returned to it is closed, [close] being its
    last system call.  In detail: when [socket] fails there is no descriptor
    and that call is the only one; when a later step fails the log ends with
    the [close] of the descriptor.  When [connect] fails with [EINPROGRESS],
    [bfddp_connect] returns 0, stores the descriptor in the context, sets
    [connecting] and does not close the descriptor. *)
Theorem bfddp_connect_outcomes k bctx sa salen p rv bctx' p' :
  bfddp_connect k bctx sa salen p = (rv, bctx', p') ->
  (forall e,
     connect_fails k e ->
     rv = -1 /\ bctx' = bctx /\ errno p' = e /\
     exists tr, calls p' = calls p ++ tr /\ created_closed tr) /\
  (forall e,
     k_socket k = Failed e ->
     calls p' = calls p ++ [(SysSocket (sa_family_of sa) (-1), e)]) /\
  (forall fd e,
     k_socket k = Done fd -> fd <> -1 -> setup_fails k e ->
     exists tr, calls p' = calls p ++ tr /\ closed_at_end fd tr) /\
  (forall fd,
     k_socket k = Done fd -> fd <> -1 -> nonblock_done k ->
     k_setsockopt k = Done 0 -> k_connect k = Failed EINPROGRESS ->
     rv = 0 /\ sock bctx' = fd /\ connecting bctx' = true /\
     inbuf bctx' = inbuf bctx /\ outbuf bctx' = outbuf bctx /\
     exists tr, calls p' = calls p ++ tr /\ existsb is_close tr = false).
Proof.
  intros E.
  assert (Hsock : forall e, k_socket k = Failed e ->
            rv = -1 /\ bctx' = bctx /\ errno p' = e /\
            calls p' = calls p ++ [(SysSocket (sa_family_of sa) (-1), e)]).
  { intros e Hs. revert E.
    unfold bfddp_connect, sys_socket, ret_of. rewrite Hs.
    cbn [Z.eqb Pos.eqb negb andb].
    intros E; injection E as <- <- <-. fields. auto. }
  split; [| split; [| split]].
  - intros e [Hs | fd Hs Hfd Hf].
    + destruct (Hsock e Hs) as (-> & -> & He & Hc).
      repeat split; [exact He |]. eexists. split; [exact Hc |].
      intros family fd e' [Hin | []] Hfd. injection Hin as _ <- _.
      contradiction.
    + destruct (connect_setup_failure k bctx sa salen p fd e Hs Hfd Hf)
        as (mid & cl & q & Eq & He & Hc & Hmid & Hall & Hend).
      rewrite Eq in E. injection E as <- <- <-.
      repeat split; [exact He |]. eexists. split; [exact Hc |].
      apply created_closed_log; assumption.
  - intros e Hs. apply (Hsock e Hs).
  - intros fd e Hs Hfd Hf.
    destruct (connect_setup_failure k bctx sa salen p fd e Hs Hfd Hf)
      as (mid & cl & q & Eq & He & Hc & Hmid & Hall & Hend).
    rewrite Eq in E. injection E as <- <- <-.
    eexists. split; [exact Hc |].
    apply (closed_at_end_app fd (_ :: mid)), Hend.
  - intros fd Hs Hfd Hnb Hnd Hc. revert E.
    unfold bfddp_connect, sys_socket. rewrite Hs. cbn [ret_of].
    destruct (Z.eqb_spec fd (-1)); [contradiction |].
    destruct (sock_set_nonblock_done k fd
                (log (SysSocket (sa_family_of sa) fd) p) Hnb)
      as (p2 & -> & _ & _ & _ & tr2 & Hc2 & Hn2 & _).
    cbn [Z.eqb Pos.eqb negb andb].
    unfold socktcp_set_nodelay, sys_setsockopt, sys_connect, ret_of.
    rewrite Hnd, Hc. cbn [Z.eqb Pos.eqb negb andb]. fields.
    intros E; injection E as <- <- <-. fields.
    repeat split. rewrite Hc2. fields. rewrite <- !app_assoc.
    eexists. split; [reflexivity |].
    rewrite !existsb_app, Hn2. reflexivity.
Qed.

Lemma bfddp_connect_outcomes_witness :
  (exists p',
     bfddp_connect refusing_kernel empty_ctx some_addr 16
       (mk_proc 0 [] [EINTR] []) = (-1, empty_ctx, p') /\
     errno p' = ECONNREFUSED /\
     exists tr, calls p' = [] ++ tr /\ closed_at_end 5 tr) /\
  (exists c' p',
     bfddp_connect slow_kernel empty_ctx some_addr 16
       (mk_proc 0 [] [] []) = (0, c', p') /\
     sock c' = 5 /\ connecting c' = true).
Proof.
  assert (Hr : nonblock_done refusing_kernel)
    by (apply (nonblock_set _ 2); [reflexivity | lia | reflexivity
                                  | reflexivity]).
  assert (Hs : nonblock_done slow_kernel)
    by (apply (nonblock_set _ 2); [reflexivity | lia | reflexivity
                                  | reflexivity]).
  split.
  - destruct (bfddp_connect refusing_kernel empty_ctx some_addr 16
                (mk_proc 0 [] [EINTR] [])) as [[rv c'] p'] eqn:E.
    destruct (bfddp_connect_outcomes _ _ _ _ _ _ _ _ E) as (H1 & _ & H3 & _).
    assert (Hf : setup_fails refusing_kernel ECONNREFUSED)
      by (apply (fails_connect _ _ Hr); [reflexivity | reflexivity
                                        | discriminate]).
    assert (Hc : connect_fails refusing_kernel ECONNREFUSED)
      by (apply (fails_setup _ _ 5); [reflexivity | lia | exact Hf]).
    destruct (H1 ECONNREFUSED Hc) as (-> & -> & He & _).
    exists p'. split; [reflexivity |]. split; [exact He |].
    apply (H3 5 ECONNREFUSED eq_refl ltac:(lia) Hf).
  - destruct (bfddp_connect slow_kernel empty_ctx some_addr 16
                (mk_proc 0 [] [] [])) as [[rv c'] p'] eqn:E.
    destruct (bfddp_connect_outcomes _ _ _ _ _ _ _ _ E) as (_ & _ & _ & H).
    destruct (H 5 eq_refl ltac:(lia) Hs eq_refl eq_refl)
      as (-> & Hsock & Hcon & _).
    exists c', p'. auto.
Defined.

Example connect_refused_log :
  calls (snd (bfddp_connect refusing_kernel empty_ctx some_addr 16
                (mk_proc 0 [] [EINTR] []))) =
  [(SysSocket 2 5, 0); (SysGetfl 5 2, 0); (SysSetfl 5 2050 0, 0);
   (SysSetsockopt 5 0, 0); (SysConnect 5 some_addr 16 (-1), ECONNREFUSED);
   (SysClose 5 (-1), EINTR); (SysClose 5 0, EINTR)].
Proof. reflexivity. Qed.

(** [ready_ctx] is what [bfddp_new] and [bfddp_connect] produce. *)
Example ready_ctx_reached :
  exists c p,
    bfddp_new zero_heap 4096 4096 = Some c /\
    bfddp_connect ready_kernel c some_addr 16 (proc_with []) =
    (0, ready_ctx, p).
Proof. do 2 eexists. split; vm_compute; reflexivity. Qed.

(** ** The invariant *)

Lemma ctx_ok_bufs c : ctx_ok c <-> buf_ok (inbuf c) /\ buf_ok (outbuf c).
Proof. unfold ctx_ok, ctx_inv, buf_ok. tauto. Qed.

Lemma bfddp_buf_read_ok sock b p rv b' p' :
  buf_ok b -> bfddp_buf_read sock b p = (rv, b', p') -> buf_ok b'.
Proof.
  intros Hok E.
  destruct (Z.eq_dec (position b) (total b)) as [Hfull | Hnf].
  - rewrite buf_read_full in E by exact Hfull. injection E as _ <- _. exact Hok.
  - apply buf_read_cases in E; [| exact Hok |].
    + destruct E as (_ & [(_ & _ & _ & _ & H & _) | [(_ & -> & _) | (-> & _)]]);
        assumption.
    + destruct Hok as [(_ & _ & _ & ?) _]. lia.
Qed.

Lemma bfddp_new_ok h inbuflen outbuflen c :
  is_size inbuflen -> is_size outbuflen ->
  bfddp_new h inbuflen outbuflen = Some c -> ctx_ok c.
Proof.
  intros Hi Ho H. apply bfddp_new_inv in H.
  destruct H as (inmem & outmem & Hin & Hout & ->).
  apply malloc_len in Hin; [| lia]. apply malloc_len in Hout; [| lia].
  unfold ctx_ok, ctx_inv, cursor_inv, storage_ok, is_size, SIZE_WIDTH in *.
  fields. repeat split; lia.
Qed.

Lemma bfddp_read_ok abi c p :
  ctx_ok c ->
  exists rv c' p', bfddp_read abi c p = Some (rv, c', p') /\ ctx_ok c'.
Proof.
  intros Hok. apply ctx_ok_bufs in Hok. destruct Hok as [Hin Hout].
  destruct (bfddp_read_returns abi c p) as (rv & c' & p' & E).
  exists rv, c', p'. split; [exact E |].
  apply bfddp_read_spec in E; [| exact Hin]. cbn zeta in E.
  destruct E as (-> & tr & last & _ & _ & _ & Hok' & _).
  apply ctx_ok_bufs. fields. split; assumption.
Qed.

Lemma bfddp_read_finish_ok c : ctx_ok c -> ctx_ok (bfddp_read_finish c).
Proof.
  intros Hok. apply ctx_ok_bufs in Hok. destruct Hok as [Hin Hout].
  apply ctx_ok_bufs. unfold bfddp_read_finish. fields.
  split; [apply pulldown_ok |]; assumption.
Qed.

Lemma bfddp_connect_ok k c sa salen p rv c' p' :
  ctx_ok c -> bfddp_connect k c sa salen p = (rv, c', p') -> ctx_ok c'.
Proof.
  intros Hok E.
  pose proof (bfddp_connect_buffers k c sa salen p) as B.
  rewrite E in B. cbn zeta in B. fields. destruct B as [Bi Bo].
  apply ctx_ok_bufs in Hok. apply ctx_ok_bufs. rewrite Bi, Bo. exact Hok.
Qed.

Lemma reachable_ok c : reachable c -> ctx_ok c.
Proof.
  induction 1 as [h i o c Hi Ho E | k c sa salen p rv c' p' _ IH E
                 | abi c p rv c' p' _ IH E | c _ IH].
  - exact (bfddp_new_ok h i o c Hi Ho E).
  - exact (bfddp_connect_ok _ _ _ _ _ _ _ _ IH E).
  - destruct (bfddp_read_ok abi c p IH) as (rv0 & c0 & p0 & E0 & Hok0).
    rewrite E in E0. injection E0 as _ <- _. exact Hok0.
  - exact (bfddp_read_finish_ok c IH).
Qed.

(** C2.  The operations of the library keep the invariant
    [remaining == total - position] and
    [0 <= packet <= position <= total] of the inbound and of the outbound
    buffer (the first component of [ctx_ok]), and keep the storage of each at
    [total] bytes: [bfddp_new] establishes it when it succeeds, and
    [bfddp_buf_read], [bfddp_buf_pulldown], [bfddp_read],
    [bfddp_read_finish] and [bfddp_connect] preserve it, so every reachable
    context has it.  [bfddp_next_message] returns a pointer and changes
    nothing. *)
Theorem operations_preserve_invariant :
  (forall h inbuflen outbuflen c,
     is_size inbuflen -> is_size outbuflen ->
     bfddp_new h inbuflen outbuflen = Some c -> ctx_ok c) /\
  (forall sock b p rv b' p',
     buf_ok b -> bfddp_buf_read sock b p = (rv, b', p') -> buf_ok b') /\
  (forall b, buf_ok b -> buf_ok (bfddp_buf_pulldown b)) /\
  (forall abi c p,
     ctx_ok c ->
     exists rv c' p', bfddp_read abi c p = Some (rv, c', p') /\ ctx_ok c') /\
  (forall c, ctx_ok c -> ctx_ok (bfddp_read_finish c)) /\
  (forall k c sa salen p rv c' p',
     ctx_ok c -> bfddp_connect k c sa salen p = (rv, c', p') -> ctx_ok c') /\
  (forall c, reachable c -> ctx_ok c).
Proof.
  split; [exact bfddp_new_ok |].
  split; [exact bfddp_buf_read_ok |].
  split; [exact pulldown_ok |].
  split; [exact bfddp_read_ok |].
  split; [exact bfddp_read_finish_ok |].
  split; [exact bfddp_connect_ok | exact reachable_ok].
Qed.

Lemma operations_preserve_invariant_witness :
  ctx_ok small_ctx /\
  ctx_ok (bfddp_read_finish small_ctx) /\
  exists c, bfddp_new zero_heap 100 100 = Some c /\ ctx_ok c.
Proof.
  assert (H : ctx_ok small_ctx) by concrete_ok.
  destruct operations_preserve_invariant as (Hnew & _ & _ & _ & Hfin & _).
  split; [exact H |]. split; [exact (Hfin small_ctx H) |].
  destruct (bfddp_new zero_heap 100 100) as [c |] eqn:E.
  - exists c. split; [reflexivity |].
    apply (Hnew zero_heap 100 100 c); [| | exact E];
      unfold is_size, SIZE_WIDTH; lia.
  - vm_compute in E. discriminate E.
Defined.

(** ** [bfddp_next_message] *)

(** With no unconsumed bytes [bfddp_next_message] returns [NULL]. *)
Lemma next_message_nothing_buffered abi c :
  position (inbuf c) <= packet (inbuf c) -> bfddp_next_message abi c = MsgNull.
Proof.
  intros H. unfold bfddp_next_message.
  destruct (Z.geb_spec (packet (inbuf c)) (position (inbuf c)));
    [reflexivity | lia].
Qed.

(** Whatever the layout of the message, a pointer [bfddp_next_message]
    returns is [&buf->buf[position]], one past the bytes received, and never
    [&buf->buf[packet]], where the unconsumed frame starts. *)
Lemma next_message_at_position abi c off :
  bfddp_next_message abi c = MsgAt off ->
  off = position (inbuf c) /\ packet (inbuf c) < off.
Proof.
  unfold bfddp_next_message.
  destruct (Z.geb_spec (packet (inbuf c)) (position (inbuf c))) as [| Hlt];
    [discriminate |].
  destruct (load _ _ _ _) as [l |]; [| discriminate].
  destruct (l >? _); [discriminate |].
  intros E; injection E as <-. split; [reflexivity | lia].
Qed.

(** The header is read at [position]: with a full buffer and unconsumed
    bytes the read is outside the storage. *)
Lemma next_message_full_buffer abi c :
  storage_ok (inbuf c) -> position (inbuf c) = total (inbuf c) ->
  packet (inbuf c) < position (inbuf c) ->
  0 <= length_offset abi -> 0 < length_size abi ->
  bfddp_next_message abi c = MsgOutOfBounds.
Proof.
  intros [Hlen _] Hfull Hpk Ho Hs. unfold bfddp_next_message, load.
  destruct (Z.geb_spec (packet (inbuf c)) (position (inbuf c))); [lia |].
  rewrite Hlen, Hfull.
  destruct (Z.leb_spec (total (inbuf c) + length_offset abi + length_size abi)
              (total (inbuf c))); [lia |].
  rewrite !andb_false_r. reflexivity.
Qed.

(** C1, on the code.  A frame of 30 bytes arrives in reads of 10 and 20
    bytes into a fresh buffer of 4096 bytes.  After the first read, with 10
    of the 30 bytes present, [bfddp_next_message] returns the pointer
    [&buf->buf[10]] and not [NULL]; after the second, with the frame
    complete at offset 0, it returns [&buf->buf[30]] and not the frame at
    [packet = 0]. *)
Theorem next_message_two_reads :
  two_reads = Some ((10, 0, 10, MsgAt 10), (20, 0, 30, MsgAt 30)).
Proof. vm_compute. reflexivity. Qed.

(** * Further properties *)

(** ** [sock_close], call by call *)

Lemma close_attempts_log fd failures : forall p,
  exists n rv e,
    calls (close_attempts fd failures p) =
      calls p ++ repeat (SysClose fd (-1), EINTR) n ++ [(SysClose fd rv, e)] /\
    firstn n failures = repeat EINTR n /\
    ((nth_error failures n = None /\ rv = 0) \/
     (nth_error failures n = Some e /\ e <> EINTR /\ rv = -1)) /\
    closes (close_attempts fd failures p) = skipn (S n) failures.
Proof.
  induction failures as [| e0 rest IH]; intros p; cbn [close_attempts].
  - exists 0%nat, 0, (errno p). fields. repeat split. left. split; reflexivity.
  - destruct (Z.eqb_spec e0 EINTR) as [-> | Hne]; cbn [negb].
    + destruct (IH (log (SysClose fd (-1))
                      (set_errno EINTR (set_closes rest p))))
        as (n & rv & e & Hc & Hf & Hl & Hcl).
      exists (S n), rv, e. rewrite Hc, Hcl. fields.
      rewrite <- app_assoc. cbn [repeat app firstn nth_error skipn].
      rewrite Hf. repeat split. exact Hl.
    + exists 0%nat, (-1), e0. fields. repeat split. right. repeat split.
      exact Hne.
Qed.

(** X1.  [sock_close] calls [close] once for every leading [EINTR] failure
    and once more, and that last call succeeds or fails with another
    [errno]; it makes no other call, and whatever [close] did to [errno],
    [errno] is afterwards what it was before. *)
Theorem sock_close_retries fd p :
  exists n rv e,
    calls (sock_close fd p) =
      calls p ++ repeat (SysClose fd (-1), EINTR) n ++ [(SysClose fd rv, e)] /\
    firstn n (closes p) = repeat EINTR n /\
    ((nth_error (closes p) n = None /\ rv = 0) \/
     (nth_error (closes p) n = Some e /\ e <> EINTR /\ rv = -1)) /\
    closes (sock_close fd p) = skipn (S n) (closes p) /\
    errno (sock_close fd p) = errno p /\
    inbound (sock_close fd p) = inbound p.
Proof.
  destruct (close_attempts_log fd (closes p) p) as (n & rv & e & Hc & Hf & Hl
                                                    & Hcl).
  exists n, rv, e. unfold sock_close. fields.
  destruct (sock_close_spec fd p) as (_ & Hin & _).
  unfold sock_close in Hin. fields. auto 10.
Qed.

Example sock_close_twice_interrupted :
  calls (sock_close 5 (mk_proc 7 [] [EINTR; EINTR; 5; EINTR] [])) =
  [(SysClose 5 (-1), EINTR); (SysClose 5 (-1), EINTR); (SysClose 5 (-1), 5)]
  /\ errno (sock_close 5 (mk_proc 7 [] [EINTR; EINTR; 5; EINTR] [])) = 7.
Proof. split; reflexivity. Qed.

(** ** [sock_set_nonblock] *)

Lemma lor_keeps a b : Z.land (Z.lor a b) a = a.
Proof.
  apply Z.bits_inj'. intros i _. rewrite Z.land_spec, Z.lor_spec.
  destruct (Z.testbit a i), (Z.testbit b i); reflexivity.
Qed.

Lemma lor_sets a b : Z.land (Z.lor a b) b = b.
Proof. rewrite Z.lor_comm. apply lor_keeps. Qed.

(** X2.  When [F_GETFL] returns flags that have [O_NONBLOCK],
    [sock_set_nonblock] returns 0 without calling [F_SETFL].  When they do
    not, it calls [F_SETFL] once, with flags that have [O_NONBLOCK] and every
    flag that was set before, and returns -1 exactly when that call returns
    -1. *)
Theorem sock_set_nonblock_flags k fd p flags rv p' :
  k_getfl k = Done flags -> 0 <= flags ->
  sock_set_nonblock k fd p = (rv, p') ->
  (Z.land flags O_NONBLOCK <> 0 ->
   rv = 0 /\ errno p' = errno p /\
   calls p' = calls p ++ [(SysGetfl fd flags, errno p)]) /\
  (Z.land flags O_NONBLOCK = 0 ->
   exists newflags r,
     calls p' = calls p ++ [(SysGetfl fd flags, errno p);
                            (SysSetfl fd newflags r, errno p')] /\
     Z.land newflags O_NONBLOCK = O_NONBLOCK /\
     Z.land newflags flags = flags /\
     rv = (if r =? -1 then -1 else 0)).
Proof.
  intros Hg H0. unfold sock_set_nonblock, sys_getfl, sys_setfl, ret_of.
  rewrite Hg. destruct (Z.eqb_spec flags (-1)); [lia |].
  destruct (Z.eqb_spec (Z.land flags O_NONBLOCK) 0) as [Hz | Hnz];
    cbn [negb].
  - destruct (k_setfl k) as [v | e].
    + destruct (Z.eqb_spec v (-1)) as [Hv | Hv];
        intros E; injection E as <- <-;
        (split; [intros; contradiction |]); intros _;
        exists (Z.lor flags O_NONBLOCK), v; fields; rewrite <- app_assoc;
        (split; [reflexivity |]); (split; [apply lor_sets |]);
        (split; [apply lor_keeps |]).
      * rewrite Hv. reflexivity.
      * destruct (Z.eqb_spec v (-1)); [contradiction | reflexivity].
    + cbn [Z.eqb Pos.eqb]. intros E; injection E as <- <-.
      split; [intros; contradiction |]. intros _.
      exists (Z.lor flags O_NONBLOCK), (-1). fields. rewrite <- app_assoc.
      split; [reflexivity |]. split; [apply lor_sets |].
      split; [apply lor_keeps | reflexivity].
  - intros E; injection E as <- <-. fields.
    split; [auto | intros; contradiction].
Qed.

Lemma sock_set_nonblock_flags_witness :
  (exists p',
     sock_set_nonblock nonblocking_kernel 5 (proc_with []) = (0, p') /\
     calls p' = [(SysGetfl 5 2050, 0)]) /\
  (exists p' newflags r,
     sock_set_nonblock ready_kernel 5 (proc_with []) = (0, p') /\
     calls p' = [(SysGetfl 5 2, 0); (SysSetfl 5 newflags r, errno p')] /\
     Z.land newflags O_NONBLOCK = O_NONBLOCK /\ Z.land newflags 2 = 2).
Proof.
  split.
  - destruct (sock_set_nonblock nonblocking_kernel 5 (proc_with []))
      as [rv p'] eqn:E.
    destruct (sock_set_nonblock_flags nonblocking_kernel 5 (proc_with [])
                2050 rv p' eq_refl ltac:(lia) E) as (H & _).
    destruct H as (-> & _ & Hc); [discriminate |].
    exists p'. split; [reflexivity | exact Hc].
  - destruct (sock_set_nonblock ready_kernel 5 (proc_with []))
      as [rv p'] eqn:E.
    destruct (sock_set_nonblock_flags ready_kernel 5 (proc_with [])
                2 rv p' eq_refl ltac:(lia) E) as (_ & H).
    destruct (H eq_refl) as (nf & r & Hc & Hnb & Hkeep & _).
    vm_compute in E. injection E as <- <-.
    eexists _, nf, r. split; [reflexivity |]. auto.
Defined.

(** ** [bfddp_connect], whatever the kernel answers *)

Lemma quiet_refl p : quiet p p.
Proof.
  repeat split. exists []. rewrite app_nil_r. repeat split.
Qed.










(** X4.  When the socket is created and configured and [connect] returns 0,
    [bfddp_connect] returns 0 with the descriptor stored and [connecting]
    false; the calls are [socket], the calls that make the socket
    non-blocking, [setsockopt] and last [connect]; and [errno], the input of
    the socket and the buffers are as before. *)
Theorem bfddp_connect_connected k bctx sa salen p fd :
  k_socket k = Done fd -> fd <> -1 -> nonblock_done k ->
  k_setsockopt k = Done 0 -> k_connect k = Done 0 ->
  exists p' mid,
    bfddp_connect k bctx sa salen p =
    (0, mk_ctx fd false (inbuf bctx) (outbuf bctx), p') /\
    calls p' =
      calls p ++ (SysSocket (sa_family_of sa) fd, errno p) :: mid ++
      [(SysSetsockopt fd 0, errno p); (SysConnect fd sa salen 0, errno p)] /\
    existsb is_close mid = false /\ existsb is_socket mid = false /\
    errno p' = errno p /\ inbound p' = inbound p /\ closes p' = closes p.
Proof.
  intros Hs Hfd Hnb Hnd Hc.
  unfold bfddp_connect, sys_socket. rewrite Hs. cbn [ret_of].
  destruct (Z.eqb_spec fd (-1)); [contradiction |].
  destruct (sock_set_nonblock_done k fd
              (log (SysSocket (sa_family_of sa) fd) p) Hnb)
    as (p2 & -> & He2 & Hi2 & Hcl2 & tr2 & Hc2 & Hn2 & Hs2).
  cbn [Z.eqb Pos.eqb negb andb].
  unfold socktcp_set_nodelay, sys_setsockopt, sys_connect, ret_of.
  rewrite Hnd, Hc. cbn [Z.eqb Pos.eqb negb andb]. fields.
  eexists _, tr2. split; [reflexivity |]. fields.
  rewrite Hc2, He2, <- !app_assoc. auto 10.
Qed.

Lemma bfddp_connect_connected_witness :
  exists p',
    bfddp_connect ready_kernel empty_ctx some_addr 16 (proc_with []) =
    (0, mk_ctx 5 false empty_buf empty_buf, p') /\
    errno p' = 0.
Proof.
  assert (Hnb : nonblock_done ready_kernel)
    by (apply (nonblock_set _ 2); [reflexivity | lia | reflexivity
                                  | reflexivity]).
  destruct (bfddp_connect_connected ready_kernel empty_ctx some_addr 16
              (proc_with []) 5 eq_refl ltac:(lia) Hnb eq_refl eq_refl)
    as (p' & mid & E & _ & _ & _ & He & _).
  exists p'. split; [exact E | exact He].
Defined.

(** ** What holds in every reachable context *)

Lemma ready_ctx_reachable : reachable ready_ctx.
Proof.
  eapply (reach_connect ready_kernel _ some_addr 16 (proc_with [])).
  - eapply (reach_new zero_heap 4096 4096);
      [unfold is_size, SIZE_WIDTH; lia | unfold is_size, SIZE_WIDTH; lia
      | vm_compute; reflexivity].
  - vm_compute. reflexivity.
Qed.

Lemma filled_ctx_reachable : reachable filled_ctx.
Proof.
  eapply (reach_read spec_abi ready_ctx
            (proc_with [Arrive (repeat "x"%byte 4096)])).
  - exact ready_ctx_reachable.
  - vm_compute. reflexivity.
Qed.

Lemma reachable_cursors c :
  reachable c ->
  packet (inbuf c) = 0 /\ 4096 <= total (inbuf c) /\
  position (outbuf c) = 0 /\ packet (outbuf c) = 0 /\
  remaining (outbuf c) = total (outbuf c) /\ 4096 <= total (outbuf c).
Proof.
  induction 1 as [h i o c Hi Ho E | k c sa salen p rv c' p' R IH E
                 | abi c p rv c' p' R IH E | c R IH].
  - apply bfddp_new_inv in E. destruct E as (im & om & _ & _ & ->). fields.
    repeat split; lia.
  - pose proof (bfddp_connect_buffers k c sa salen p) as B.
    rewrite E in B. cbn zeta in B. fields. destruct B as [-> ->]. exact IH.
  - apply reachable_ok, ctx_ok_bufs in R. destruct R as [Hin _].
    apply bfddp_read_spec in E; [| exact Hin]. cbn zeta in E.
    destruct E as (-> & tr & last & _ & _ & _ & _ & Ht & Hpk & _). fields.
    rewrite Hpk, Ht, read_guard_total.
    destruct IH as (IH1 & IH2). split; [| exact IH2].
    unfold read_guard. destruct (_ <=? _); [| exact IH1].
    rewrite pulldown_unfold by exact Hin. reflexivity.
  - apply reachable_ok, ctx_ok_bufs in R. destruct R as [Hin _].
    unfold bfddp_read_finish. fields.
    rewrite pulldown_unfold by exact Hin. fields.
    destruct IH as (_ & IH2). split; [reflexivity | exact IH2].
Qed.

(** X5.  No operation of the library moves [packet] away from 0 or writes
    to the outbound buffer: in every reachable context the [packet] cursor of
    the inbound buffer is 0, the outbound buffer is empty, and both
    capacities are at least 4096 bytes. *)
Theorem reachable_packet_zero c :
  reachable c ->
  packet (inbuf c) = 0 /\ 4096 <= total (inbuf c) /\
  position (outbuf c) = 0 /\ packet (outbuf c) = 0 /\
  remaining (outbuf c) = total (outbuf c) /\ 4096 <= total (outbuf c).
Proof.
  intros R. apply reachable_cursors in R.
  destruct R as (Hpk & Hti & Hpo & Hpko & Hro & Hto).
  repeat split; assumption.
Qed.

Lemma reachable_packet_zero_witness :
  reachable filled_ctx /\
  packet (inbuf filled_ctx) = 0 /\ position (inbuf filled_ctx) = 4096 /\
  position (outbuf filled_ctx) = 0.
Proof.
  pose proof filled_ctx_reachable as R.
  destruct (reachable_packet_zero filled_ctx R) as (Hp & _ & Ho & _).
  split; [exact R |]. split; [exact Hp |]. split; [reflexivity | exact Ho].
Defined.

Lemma set_inbuf_same c : set_inbuf c (inbuf c) = c.
Proof. destruct c; reflexivity. Qed.

(** X6.  In a reachable context [bfddp_read_finish] changes nothing, since
    [packet] is 0; and once the inbound buffer is full it stays full:
    [bfddp_read] then returns 0 without a system call and leaves the context
    and the process as they are. *)
Theorem full_buffer_stays_full c :
  reachable c ->
  bfddp_read_finish c = c /\
  (position (inbuf c) = total (inbuf c) ->
   forall abi p, bfddp_read abi c p = Some (0, c, p)).
Proof.
  intros R. destruct (reachable_cursors c R) as (Hpk & _).
  apply reachable_ok, ctx_ok_bufs in R. destruct R as [Hin _].
  assert (Hpd : bfddp_buf_pulldown (inbuf c) = inbuf c)
    by (apply pulldown_packet0; assumption).
  split.
  - unfold bfddp_read_finish. rewrite Hpd. apply set_inbuf_same.
  - intros Hfull abi p. unfold bfddp_read, read_guard. rewrite Hpd.
    destruct (_ <=? _); cbn [bfddp_read_loop];
      rewrite buf_read_full by exact Hfull; cbn [Z.eqb Z.add];
      apply full_iff in Hfull; rewrite Hfull, set_inbuf_same; reflexivity.
Qed.

Lemma full_buffer_stays_full_witness :
  bfddp_read_finish filled_ctx = filled_ctx /\
  bfddp_read spec_abi filled_ctx (proc_with [Arrive ["a"; "b"]%byte]) =
  Some (0, filled_ctx, proc_with [Arrive ["a"; "b"]%byte]).
Proof.
  pose proof filled_ctx_reachable as R.
  destruct (full_buffer_stays_full filled_ctx R) as (Hf & Hr).
  split; [exact Hf | apply Hr; reflexivity].
Defined.

(** ** What [bfddp_next_message] looks at *)

(** X7.  On a reachable context whose inbound buffer is full,
    [bfddp_next_message] reads the [length] member outside the storage of
    the buffer, whatever the layout of the message. *)
Theorem next_message_on_full_buffer abi c :
  reachable c -> position (inbuf c) = total (inbuf c) ->
  0 <= length_offset abi -> 0 < length_size abi ->
  bfddp_next_message abi c = MsgOutOfBounds.
Proof.
  intros R Hfull Ho Hs.
  destruct (reachable_cursors c R) as (Hpk & Ht & _).
  apply reachable_ok in R. destruct R as (_ & Hst & _).
  apply next_message_full_buffer; try assumption. lia.
Qed.

Lemma next_message_on_full_buffer_witness :
  reachable filled_ctx /\
  bfddp_next_message spec_abi filled_ctx = MsgOutOfBounds.
Proof.
  split; [exact filled_ctx_reachable |].
  apply (next_message_on_full_buffer spec_abi filled_ctx filled_ctx_reachable);
    [reflexivity | cbn; lia | cbn; lia].
Defined.

Lemma skipn_from (mem mem' : list byte) (a b : nat) :
  skipn a mem = skipn a mem' -> skipn (b + a) mem = skipn (b + a) mem'.
Proof. intros H. rewrite <- !skipn_skipn, H. reflexivity. Qed.

Lemma load_from big mem mem' pos off n :
  0 <= pos -> pos <= off -> length mem' = length mem ->
  skipn (nat_of pos) mem' = skipn (nat_of pos) mem ->
  load big mem' off n = load big mem off n.
Proof.
  intros Hp Ho Hlen Hsk. unfold load, slice, len, nat_of in *. rewrite Hlen.
  replace (Z.to_nat off) with (Z.to_nat (off - pos) + Z.to_nat pos)%nat
    by lia.
  rewrite (skipn_from mem' mem _ _ Hsk). reflexivity.
Qed.

(** X8.  The answer of [bfddp_next_message] does not depend on the bytes
    received: two inbound buffers that agree on the cursors and on the bytes
    from [position] on get the same answer, whatever lies in
    [[0, position)]; and an answer that is a pointer is
    [&buf->buf[position]]. *)
Theorem next_message_ignores_received abi c mem :
  0 <= length_offset abi -> 0 <= position (inbuf c) ->
  length mem = length (buf (inbuf c)) ->
  skipn (nat_of (position (inbuf c))) mem =
  skipn (nat_of (position (inbuf c))) (buf (inbuf c)) ->
  bfddp_next_message abi (set_inbuf c (set_buf (inbuf c) mem)) =
  bfddp_next_message abi c /\
  forall off,
    bfddp_next_message abi c = MsgAt off -> off = position (inbuf c).
Proof.
  intros Ho Hp Hlen Hsk. split.
  - unfold bfddp_next_message, set_buf. fields.
    destruct (_ >=? _); [reflexivity |].
    rewrite (load_from _ (buf (inbuf c)) mem (position (inbuf c)));
      [reflexivity | lia | lia | exact Hlen | exact Hsk].
  - intros off H. unfold bfddp_next_message in H.
    destruct (_ >=? _); [discriminate |].
    destruct (load _ _ _ _) as [l |]; [| discriminate].
    destruct (l >? _); [discriminate |]. injection H as <-. reflexivity.
Qed.

Lemma next_message_ignores_received_witness :
  bfddp_next_message tiny_abi
    (set_inbuf small_ctx (set_buf small_buf other_small_mem)) =
  bfddp_next_message tiny_abi small_ctx /\
  bfddp_next_message tiny_abi small_ctx = MsgAt 5.
Proof.
  destruct (next_message_ignores_received tiny_abi small_ctx other_small_mem)
    as (H & _); [cbn; lia | cbn; lia | reflexivity | reflexivity |].
  split; [exact H | reflexivity].
Defined.

(** ** [bfddp_new], a fresh context *)

(** X9.  [bfddp_new] fails exactly when [calloc] or one of the two [malloc]s
    fails.  The context it returns otherwise has descriptor 0, is not
    connecting, and has two empty buffers: [bfddp_next_message] returns
    [NULL] on it and [bfddp_read_finish] leaves it as it is. *)
Theorem bfddp_new_all_or_nothing h inbuflen outbuflen :
  (bfddp_new h inbuflen outbuflen = None <->
   calloc_ctx h = false \/ malloc_in h = None \/ malloc_out h = None) /\
  (forall c,
     bfddp_new h inbuflen outbuflen = Some c ->
     sock c = 0 /\ connecting c = false /\
     position (inbuf c) = 0 /\ packet (inbuf c) = 0 /\
     remaining (inbuf c) = total (inbuf c) /\
     position (outbuf c) = 0 /\ packet (outbuf c) = 0 /\
     remaining (outbuf c) = total (outbuf c) /\
     (forall abi, bfddp_next_message abi c = MsgNull) /\
     bfddp_read_finish c = c).
Proof.
  split.
  - unfold bfddp_new, malloc.
    destruct (calloc_ctx h), (malloc_in h), (malloc_out h); cbn [negb];
      split; intros H; try discriminate; auto;
      destruct H as [H | [H | H]]; discriminate.
  - intros c E. apply bfddp_new_inv in E.
    destruct E as (im & om & _ & _ & ->). fields.
    repeat split.
Qed.

Lemma bfddp_new_all_or_nothing_witness :
  bfddp_new (mk_heap true (Some (fun _ => "000"%byte)) None) 100 100 = None /\
  exists c,
    bfddp_new zero_heap 100 100 = Some c /\
    (forall abi, bfddp_next_message abi c = MsgNull) /\
    bfddp_read_finish c = c.
Proof.
  split.
  - apply (bfddp_new_all_or_nothing
             (mk_heap true (Some (fun _ => "000"%byte)) None) 100 100).
    right. right. reflexivity.
  - destruct (bfddp_new zero_heap 100 100) as [c |] eqn:E.
    + exists c. split; [reflexivity |].
      destruct (bfddp_new_all_or_nothing zero_heap 100 100) as (_ & H).
      destruct (H c E) as (_ & _ & _ & _ & _ & _ & _ & _ & Hn & Hf).
      split; assumption.
    + vm_compute in E. discriminate E.
Defined.

(** ** The bytes [bfddp_read] appends *)

Lemma slice_empty mem a : slice mem a a = [].
Proof. unfold slice. rewrite Z.sub_diag. reflexivity. Qed.

Lemma firstn_add {A} (x y : nat) : forall l : list A,
  firstn (x + y) l = firstn x l ++ firstn y (skipn x l).
Proof.
  induction x as [| x IH]; intros l; [reflexivity |].
  destruct l as [| a l]; cbn [Nat.add firstn skipn app].
  - rewrite firstn_nil. reflexivity.
  - rewrite IH. reflexivity.
Qed.

Lemma slice_split mem a b c :
  0 <= a <= b -> b <= c ->
  slice mem a c = slice mem a b ++ slice mem b c.
Proof.
  intros Hab Hbc. unfold slice, nat_of.
  replace (Z.to_nat (c - a)) with (Z.to_nat (b - a) + Z.to_nat (c - b))%nat
    by lia.
  replace (Z.to_nat b) with (Z.to_nat (b - a) + Z.to_nat a)%nat by lia.
  rewrite <- skipn_skipn. apply firstn_add.
Qed.

(** Buffers that agree below [h] agree on every range below [h]. *)
Lemma slice_within mem mem' l h :
  0 <= l <= h -> slice mem 0 h = slice mem' 0 h ->
  slice mem l h = slice mem' l h.
Proof.
  intros Hlh H. unfold slice, nat_of in *.
  cbn [Z.to_nat skipn] in H. rewrite Z.sub_0_r in H.
  rewrite !firstn_skipn_comm.
  replace (Z.to_nat l + Z.to_nat (h - l))%nat with (Z.to_nat h) by lia.
  rewrite H. reflexivity.
Qed.

Lemma slice_store mem off bs :
  0 <= off -> off + len bs <= len mem ->
  slice (store mem off bs) off (off + len bs) = bs.
Proof.
  intros Ho Hb. unfold slice, store, nat_of, len in *.
  replace (off + Z.of_nat (length bs) - off) with (Z.of_nat (length bs))
    by lia.
  rewrite Nat2Z.id.
  rewrite skipn_app, length_firstn.
  rewrite (skipn_all2 (firstn _ _)) by (rewrite length_firstn; lia).
  replace (Z.to_nat off - Nat.min (Z.to_nat off) (length mem))%nat
    with 0%nat by lia.
  cbn [skipn app]. rewrite firstn_app, firstn_all, Nat.sub_diag, firstn_0.
  apply app_nil_r.
Qed.

Lemma deliver_stream count pending r rest :
  deliver count pending = (r, rest) ->
  match r with
  | RBytes bs => bs ++ pending_bytes rest
  | _ => pending_bytes rest
  end = pending_bytes pending.
Proof.
  induction pending as [| ev pending IH]; cbn [deliver].
  - intros H; injection H as <- <-. reflexivity.
  - destruct ev as [l | e |].
    + destruct l as [| x l].
      * exact IH.
      * destruct (_ <=? _)%nat; intros H; injection H as <- <-;
          cbn [pending_bytes]; [reflexivity |].
        rewrite app_assoc, firstn_skipn. reflexivity.
    + intros H; injection H as <- <-. reflexivity.
    + intros H; injection H as <- <-. reflexivity.
Qed.

(** One [bfddp_buf_read]: the bytes between the old and the new [position]
    are those taken from the socket. *)
Lemma buf_read_stream sock b p rv b' p' :
  buf_ok b -> bfddp_buf_read sock b p = (rv, b', p') ->
  slice (buf b') (position b) (position b') ++ pending_bytes (inbound p') =
  pending_bytes (inbound p).
Proof.
  intros Hok E.
  destruct (Z.eq_dec (position b) (total b)) as [Hfull | Hnf].
  { rewrite buf_read_full in E by exact Hfull. injection E as _ <- <-.
    rewrite slice_empty. reflexivity. }
  destruct Hok as [(Hr & Hp0 & Hpp & Hpt) [Hlen Hsz]].
  revert E. unfold bfddp_buf_read, sys_read.
  destruct (BFDDP_BUF_FULL b) eqn:F; [apply full_iff in F; lia |].
  destruct (Z.eqb_spec (remaining b) 0); [lia |].
  destruct (deliver (nat_of (remaining b)) (inbound p)) as [r rest] eqn:D.
  pose proof (deliver_stream _ _ _ _ D) as S.
  destruct r as [bs | | e].
  - pose proof (deliver_data _ _ _ _ D) as [Hle _].
    assert (Hbs : len bs <= remaining b)
      by (unfold len, nat_of in *; lia).
    destruct (Z.eqb_spec (len bs) 0) as [Hz | Hnz].
    + intros E; injection E as _ <- <-. fields.
      destruct bs; [| unfold len in Hz; cbn in Hz; lia].
      rewrite slice_empty. exact S.
    + destruct (Z.eqb_spec (len bs) (-1)); [unfold len in *; lia |].
      intros E; injection E as _ <- <-. fields.
      rewrite sz_small
        by (apply (is_size_between 0 (total b)); auto;
            unfold len in *; lia).
      rewrite slice_store by lia. exact S.
  - cbn [Z.eqb]. intros E; injection E as _ <- <-. fields.
    rewrite slice_empty. exact S.
  - cbn [Z.eqb]. fields.
    destruct (is_transient e); intros E; injection E as _ <- <-; fields;
      rewrite slice_empty; exact S.
Qed.

Lemma read_loop_stream fuel : forall sock b t p rv b' p',
  buf_ok b ->
  bfddp_read_loop fuel sock b t p = Some (rv, b', p') ->
  slice (buf b') (position b) (position b') ++ pending_bytes (inbound p') =
  pending_bytes (inbound p).
Proof.
  induction fuel as [| fuel IH]; intros sock b t p rv b' p' Hok;
    [discriminate |].
  cbn [bfddp_read_loop].
  destruct (bfddp_buf_read sock b p) as [[r b1] p1] eqn:R.
  pose proof (buf_read_stream _ _ _ _ _ _ Hok R) as S1.
  pose proof (bfddp_buf_read_ok _ _ _ _ _ _ Hok R) as Hok1.
  destruct (r =? -1);
    [destruct (t =? 0); intros E; injection E as _ <- <-; exact S1 |].
  destruct (BFDDP_BUF_FULL b1); [intros E; injection E as _ <- <-; exact S1 |].
  destruct (r =? 0); [intros E; injection E as _ <- <-; exact S1 |].
  destruct (0 <? r); [| intros E; injection E as _ <- <-; exact S1].
  intros E. pose proof (IH _ _ _ _ _ _ _ Hok1 E) as S2.
  apply read_loop_spec in E; [| exact Hok1].
  destruct E as (tr & last & _ & Hd & _ & Hok' & _ & _ & Hsl & _).
  assert (Hb1 : position b1 <= total b1) by apply Hok1.
  pose proof (data_reads_bounds _ _ _ _ _ _ Hd Hb1) as Hb.
  assert (Hp0 : 0 <= position b <= total b)
    by (destruct Hok as [(_ & ? & ? & ?) _]; lia).
  assert (Hpos : 0 <= position b <= position b1).
  { destruct (Z.eq_dec (position b) (total b)) as [Hfull | Hnf].
    - rewrite buf_read_full in R by exact Hfull. injection R as _ <- _. lia.
    - apply buf_read_cases in R; [| exact Hok | lia].
      destruct R as (_ & [(? & _ & _ & _ & _ & _ & _ & -> & _)
                         | [(_ & -> & _) | (-> & _)]]); lia. }
  rewrite (slice_split _ _ (position b1)) by lia.
  rewrite <- app_assoc, S2.
  rewrite (slice_within (buf b') (buf b1)) by (exact Hpos || exact Hsl).
  exact S1.
Qed.

Lemma max0_of_result fd tot pos t e0 last e rv :
  loop_end fd tot pos t e0 last e rv -> 0 <= t -> Z.max 0 rv = t.
Proof.
  intros H Ht. destruct H; try destruct (Z.eqb_spec t 0); lia.
Qed.

(** X10.  [bfddp_read] neither loses, nor repeats, nor reorders bytes: the
    bytes it appended to the inbound buffer, followed by the bytes still
    pending on the socket, are the bytes that were pending before; and it
    appended as many bytes as it returns, or none when it returns -1. *)
Theorem bfddp_read_stream abi c p :
  buf_ok (inbuf c) ->
  exists rv c' p',
    bfddp_read abi c p = Some (rv, c', p') /\
    let start := position (read_guard abi (inbuf c)) in
    position (inbuf c') = start + Z.max 0 rv /\
    slice (buf (inbuf c')) start (start + Z.max 0 rv) ++
    pending_bytes (inbound p') = pending_bytes (inbound p).
Proof.
  intros Hok.
  destruct (bfddp_read_returns abi c p) as (rv & c' & p' & E).
  exists rv, c', p'. split; [exact E |]. cbn zeta.
  pose proof (bfddp_read_spec _ _ _ _ _ _ Hok E) as S. cbn zeta in S.
  destruct S as (_ & tr & last & _ & Hd & He & _).
  assert (Hg : buf_ok (read_guard abi (inbuf c)))
    by (apply read_guard_ok, Hok).
  assert (Hb : position (read_guard abi (inbuf c))
               <= total (read_guard abi (inbuf c))) by apply Hg.
  pose proof (data_reads_bounds _ _ _ _ _ _ Hd Hb) as Hb'.
  rewrite (data_reads_received _ _ _ _ _ _ Hd) in He.
  apply max0_of_result in He; [| lia].
  assert (Hpos : position (inbuf c')
                 = position (read_guard abi (inbuf c)) + Z.max 0 rv) by lia.
  split; [exact Hpos |]. rewrite <- Hpos.
  revert E. unfold bfddp_read.
  destruct (bfddp_read_loop _ _ _ _ _) as [[[r b] q] |] eqn:L;
    [| discriminate].
  intros E; injection E as <- <- <-. fields.
  exact (read_loop_stream _ _ _ _ _ _ _ _ Hg L).
Qed.

Lemma bfddp_read_stream_witness :
  exists c' p',
    bfddp_read spec_abi ready_ctx
      (proc_with [Arrive ["a"; "b"; "c"]%byte; Fail EINTR;
                  Arrive ["d"; "e"]%byte]) = Some (3, c', p') /\
    position (inbuf c') = 3 /\
    slice (buf (inbuf c')) 0 3 ++ pending_bytes (inbound p') =
    ["a"; "b"; "c"; "d"; "e"]%byte.
Proof.
  assert (Hok : buf_ok (inbuf ready_ctx)) by concrete_ok.
  destruct (bfddp_read_stream spec_abi ready_ctx
              (proc_with [Arrive ["a"; "b"; "c"]%byte; Fail EINTR;
                          Arrive ["d"; "e"]%byte]) Hok)
    as (rv & c' & p' & E & Hp & Hs).
  vm_compute in E. injection E as <- <- <-.
  do 2 eexists. split; [vm_compute; reflexivity |].
  split; [exact Hp | exact Hs].
Defined.

(** X11.  [bfddp_read] keeps the unconsumed bytes: the bytes that were in
    [[packet, position)] on entry are afterwards in the buffer from the new
    [packet] on, below the new [position], whether or not the call compacted
    the buffer first; nothing else of the context changes. *)
Theorem bfddp_read_keeps_unconsumed abi c p :
  buf_ok (inbuf c) ->
  exists rv c' p',
    bfddp_read abi c p = Some (rv, c', p') /\
    let b := inbuf c in
    let b' := inbuf c' in
    let n := position b - packet b in
    slice (buf b') (packet b') (packet b' + n) =
    slice (buf b) (packet b) (position b) /\
    packet b' + n <= position b' /\
    c' = set_inbuf c b'.
Proof.
  intros Hok.
  destruct (bfddp_read_returns abi c p) as (rv & c' & p' & E).
  exists rv, c', p'. split; [exact E |]. cbn zeta.
  pose proof (bfddp_read_spec _ _ _ _ _ _ Hok E) as S. cbn zeta in S.
  destruct S as (Hc' & tr & last & _ & Hd & _ & _ & _ & Hpk & Hsl & _).
  assert (Hg : buf_ok (read_guard abi (inbuf c)))
    by (apply read_guard_ok, Hok).
  assert (Hb : position (read_guard abi (inbuf c))
               <= total (read_guard abi (inbuf c))) by apply Hg.
  pose proof (data_reads_bounds _ _ _ _ _ _ Hd Hb) as Hb'.
  assert (Hcur : 0 <= packet (inbuf c) <= position (inbuf c)
                 /\ position (inbuf c) <= len (buf (inbuf c))).
  { destruct Hok as [(_ & ? & ? & ?) [Hlen _]]. rewrite Hlen. lia. }
  rewrite Hpk. revert Hsl Hb'. unfold read_guard.
  destruct (_ <=? _).
  - rewrite pulldown_unfold by exact Hok. fields. intros Hsl Hb'.
    rewrite Z.add_0_l, Hsl, memmove_moves by lia.
    repeat split; [f_equal; lia | lia | exact Hc'].
  - intros Hsl Hb'.
    replace (packet (inbuf c) + (position (inbuf c) - packet (inbuf c)))
      with (position (inbuf c)) by lia.
    repeat split; [apply slice_within; [lia | exact Hsl] | lia | exact Hc'].
Qed.

Lemma bfddp_read_keeps_unconsumed_witness :
  exists c' p',
    bfddp_read spec_abi full_ctx (proc_with [Arrive ["x"; "y"]%byte]) =
    Some (2, c', p') /\
    slice (buf (inbuf full_ctx)) 6 8 = ["g"; "h"]%byte /\
    slice (buf (inbuf c')) (packet (inbuf c')) (packet (inbuf c') + 2) =
    slice (buf (inbuf full_ctx)) 6 8 /\
    slice (buf (inbuf c')) 0 4 = ["g"; "h"; "x"; "y"]%byte.
Proof.
  assert (Hok : buf_ok (inbuf full_ctx)) by concrete_ok.
  destruct (bfddp_read_keeps_unconsumed spec_abi full_ctx
              (proc_with [Arrive ["x"; "y"]%byte]) Hok)
    as (rv & c' & p' & E & Hs & _).
  vm_compute in E. injection E as <- <- <-.
  do 2 eexists. split; [vm_compute; reflexivity |].
  split; [reflexivity |]. split; [exact Hs | reflexivity].
Defined.

(** ** What the return value of [bfddp_read] tells *)

Lemma data_reads_count fd tot e pos tr pos' :
  data_reads fd tot e pos tr pos' -> len tr <= pos' - pos.
Proof.
  induction 1 as [pos | pos n tr pos' Hlt Hn _ IH]; unfold len in *;
    cbn [length]; lia.
Qed.

Lemma data_reads_none fd tot e pos tr :
  data_reads fd tot e pos tr pos -> pos <= tot -> tr = [].
Proof.
  intros H Hle. pose proof (data_reads_count _ _ _ _ _ _ H) as Hc.
  destruct tr; [reflexivity | unfold len in Hc; cbn [length] in Hc; lia].
Qed.

(** X12.  The return value of [bfddp_read] lies between -1 and the free
    space of the buffer.  A 0 means that no [read] was made because the
    buffer is full, or that the only [read] failed with [EINTR], [EAGAIN] or
    [EWOULDBLOCK].  A -1 means that the only [read] returned 0, with [errno]
    0 afterwards, or failed with another [errno], which is [errno]
    afterwards; [position] is then unchanged.  A positive value is the
    number of bytes the [read]s of the call returned. *)
Theorem bfddp_read_return_value abi c p :
  buf_ok (inbuf c) ->
  exists rv c' p' tr,
    bfddp_read abi c p = Some (rv, c', p') /\
    calls p' = calls p ++ tr /\
    let b0 := read_guard abi (inbuf c) in
    -1 <= rv <= total b0 - position b0 /\
    (rv = 0 ->
     (tr = [] /\ position b0 = total b0 /\ errno p' = errno p) \/
     (exists off count e,
        tr = [(SysRead (sock c) off count (-1), e)] /\
        is_transient e = true /\ errno p' = e)) /\
    (rv = -1 ->
     position (inbuf c') = position b0 /\
     exists off count e,
       (tr = [(SysRead (sock c) off count 0, e)] /\ errno p' = 0) \/
       (tr = [(SysRead (sock c) off count (-1), e)] /\
        is_transient e = false /\ errno p' = e)) /\
    (0 < rv ->
     rv = received tr /\ position (inbuf c') = position b0 + rv).
Proof.
  intros Hok.
  destruct (bfddp_read_returns abi c p) as (rv & c' & p' & E).
  pose proof (bfddp_read_spec _ _ _ _ _ _ Hok E) as S. cbn zeta in S.
  destruct S as (_ & tr & last & Hc & Hd & He & _).
  exists rv, c', p', (tr ++ last). split; [exact E |]. split; [exact Hc |].
  cbn zeta.
  assert (Hg : buf_ok (read_guard abi (inbuf c)))
    by (apply read_guard_ok, Hok).
  assert (Hb : position (read_guard abi (inbuf c))
               <= total (read_guard abi (inbuf c))) by apply Hg.
  pose proof (data_reads_bounds _ _ _ _ _ _ Hd Hb) as Hb'.
  pose proof (data_reads_received _ _ _ _ _ _ Hd) as Hrec.
  assert (Hnil : received tr = 0 -> tr = []).
  { intros Hz. rewrite Hrec in Hz.
    assert (Hp : position (inbuf c') = position (read_guard abi (inbuf c)))
      by lia.
    rewrite Hp in Hd. exact (data_reads_none _ _ _ _ _ Hd Hb). }
  assert (Hlast : received (tr ++ last) = received tr).
  { unfold received. rewrite fold_right_app.
    destruct He; cbn [fold_right read_count fst]; reflexivity. }
  rewrite Hlast.
  destruct He as [Hfull | Hlt | e Hlt Ht | e Hlt Ht].
  - rewrite app_nil_r. split; [lia |]. split; [| split].
    + intros Hz. left. rewrite (Hnil Hz) in *.
      inversion Hd; subst. repeat split; lia.
    + intros Hm. lia.
    + intros _. split; [reflexivity | lia].
  - destruct (Z.eqb_spec (received tr) 0) as [Hz | Hnz].
    + rewrite (Hnil Hz) in *. inversion Hd; subst.
      split; [lia |]. split; [intros; lia |]. split; [| intros; lia].
      intros _. split; [reflexivity |]. eexists _, _, _. left.
      split; reflexivity.
    + split; [lia |]. split; [intros; lia |]. split; [intros; lia |].
      intros _. split; [reflexivity | lia].
  - split; [lia |]. split; [| split].
    + intros Hz. right. rewrite (Hnil Hz) in *. inversion Hd; subst.
      eexists _, _, _. split; [reflexivity | auto].
    + intros; lia.
    + intros _. split; [reflexivity | lia].
  - destruct (Z.eqb_spec (received tr) 0) as [Hz | Hnz].
    + rewrite (Hnil Hz) in *. inversion Hd; subst.
      split; [lia |]. split; [intros; lia |]. split; [| intros; lia].
      intros _. split; [reflexivity |]. eexists _, _, _. right.
      split; [reflexivity | auto].
    + split; [lia |]. split; [intros; lia |]. split; [intros; lia |].
      intros _. split; [reflexivity | lia].
Qed.

Lemma bfddp_read_return_value_witness :
  exists c' p',
    bfddp_read spec_abi ready_ctx (proc_with []) = Some (0, c', p') /\
    is_transient (errno p') = true.
Proof.
  assert (Hok : buf_ok (inbuf ready_ctx)) by concrete_ok.
  destruct (bfddp_read_return_value spec_abi ready_ctx (proc_with []) Hok)
    as (rv & c' & p' & tr & E & _ & _ & H0 & _).
  vm_compute in E. injection E as <- <- <-.
  do 2 eexists. split; [vm_compute; reflexivity |].
  destruct (H0 eq_refl) as [(_ & Hfull & _) | (off & count & e & _ & Ht & He)].
  - vm_compute in Hfull. discriminate Hfull.
  - rewrite He. exact Ht.
Defined.

(** X13.  One [bfddp_read] makes at most one system call more than the
    number of bytes it returns, hence at most one more than the free space of
    the buffer; all of them are [read]s on the descriptor of the context. *)
Theorem bfddp_read_call_bound abi c p :
  buf_ok (inbuf c) ->
  exists rv c' p' tr,
    bfddp_read abi c p = Some (rv, c', p') /\
    calls p' = calls p ++ tr /\
    let b0 := read_guard abi (inbuf c) in
    len tr <= Z.max 0 rv + 1 /\
    Z.max 0 rv + 1 <= total b0 - position b0 + 1 /\
    Forall (fun s => exists off count r, fst s = SysRead (sock c) off count r)
           tr.
Proof.
  intros Hok.
  destruct (bfddp_read_returns abi c p) as (rv & c' & p' & E).
  pose proof (bfddp_read_spec _ _ _ _ _ _ Hok E) as S. cbn zeta in S.
  destruct S as (_ & tr & last & Hc & Hd & He & _).
  exists rv, c', p', (tr ++ last). split; [exact E |]. split; [exact Hc |].
  cbn zeta.
  assert (Hg : buf_ok (read_guard abi (inbuf c)))
    by (apply read_guard_ok, Hok).
  assert (Hb : 0 <= position (read_guard abi (inbuf c))
               <= total (read_guard abi (inbuf c)))
    by (destruct Hg as [(_ & ? & ? & ?) _]; lia).
  pose proof (data_reads_bounds _ _ _ _ _ _ Hd (proj2 Hb)) as Hb'.
  pose proof (data_reads_count _ _ _ _ _ _ Hd) as Hn.
  pose proof (loop_end_short _ _ _ _ _ _ _ _ He) as Hl.
  pose proof (loop_end_within _ _ _ _ _ _ _ _ He ltac:(lia)) as Hw.
  pose proof (data_reads_within _ _ _ _ _ _ Hd (proj1 Hb)) as Hwd.
  rewrite (data_reads_received _ _ _ _ _ _ Hd) in He.
  apply max0_of_result in He; [| lia].
  rewrite len_app. unfold len in *. split; [lia |]. split; [lia |].
  apply Forall_app. split;
    [eapply Forall_impl; [| exact Hwd] | eapply Forall_impl; [| exact Hw]];
    intros s (off & count & r & e & -> & _); eexists _, _, _; reflexivity.
Qed.

Lemma bfddp_read_call_bound_witness :
  exists c' p',
    bfddp_read spec_abi ready_ctx
      (proc_with [Arrive ["a"]%byte; Arrive ["b"]%byte; Arrive ["c"]%byte]) =
    Some (3, c', p') /\
    len (calls p') <= 3 + 1.
Proof.
  assert (Hok : buf_ok (inbuf ready_ctx)) by concrete_ok.
  destruct (bfddp_read_call_bound spec_abi ready_ctx
              (proc_with [Arrive ["a"]%byte; Arrive ["b"]%byte;
                          Arrive ["c"]%byte]) Hok)
    as (rv & c' & p' & tr & E & Hc & Hn & _).
  vm_compute in E. injection E as <- <- <-.
  do 2 eexists. split; [vm_compute; reflexivity |].
  cbn [calls proc_with app] in Hc. rewrite Hc. exact Hn.
Defined.

(** ** [bfddp_read] reads until the buffer is full or the socket is dry *)

Lemma deliver_only_data count pending r rest :
  only_data pending -> deliver count pending = (r, rest) ->
  only_data rest /\
  match r with
  | RBytes _ => True
  | REof => False
  | RErr e => e = EAGAIN /\ rest = []
  end.
Proof.
  unfold only_data. induction 1 as [| ev pending [l ->] Hrest IH];
    cbn [deliver].
  - intros H; injection H as <- <-. auto.
  - destruct l as [| x l]; [exact IH |].
    destruct (_ <=? _)%nat; intros H; injection H as <- <-;
      (split; [| exact I]); [exact Hrest |].
    constructor; [eauto | exact Hrest].
Qed.

Lemma buf_read_only_data sock b p rv b' p' :
  buf_ok b -> only_data (inbound p) ->
  bfddp_buf_read sock b p = (rv, b', p') ->
  only_data (inbound p') /\ rv <> -1 /\
  (rv = 0 -> b' = b /\ (position b = total b \/ inbound p' = [])).
Proof.
  intros Hok Hd.
  destruct (Z.eq_dec (position b) (total b)) as [Hfull | Hnf].
  { rewrite buf_read_full by exact Hfull. intros E; injection E as <- <- <-.
    repeat split; auto; lia. }
  destruct Hok as [(Hr & Hp0 & Hpp & Hpt) _].
  unfold bfddp_buf_read, sys_read.
  destruct (BFDDP_BUF_FULL b) eqn:F; [apply full_iff in F; lia |].
  destruct (Z.eqb_spec (remaining b) 0); [lia |].
  destruct (deliver (nat_of (remaining b)) (inbound p)) as [r rest] eqn:D.
  destruct (deliver_only_data _ _ _ _ Hd D) as [Hd' Hr'].
  destruct r as [bs | | e]; [| contradiction |].
  - assert (Hne : bs <> [])
      by (apply (deliver_nonempty _ _ _ _ D); unfold nat_of; lia).
    assert (Hlen : 0 < len bs).
    { destruct bs; [contradiction |]. unfold len. cbn [length]. lia. }
    destruct (Z.eqb_spec (len bs) 0); [lia |].
    destruct (Z.eqb_spec (len bs) (-1)); [lia |].
    intros E; injection E as <- <- <-. fields.
    repeat split; [exact Hd' | lia | lia | lia].
  - destruct Hr' as [-> ->]. cbn [Z.eqb Pos.eqb]. fields.
    change (is_transient EAGAIN) with true. cbn iota.
    intros E; injection E as <- <- <-. fields.
    repeat split; [constructor | lia | destruct b; reflexivity | auto].
Qed.

Lemma read_loop_drains fuel : forall sock b t p rv b' p',
  buf_ok b -> only_data (inbound p) -> 0 <= t ->
  bfddp_read_loop fuel sock b t p = Some (rv, b', p') ->
  0 <= rv /\ (position b' = total b' \/ inbound p' = []).
Proof.
  induction fuel as [| fuel IH]; intros sock b t p rv b' p' Hok Hd Ht;
    [discriminate |].
  cbn [bfddp_read_loop].
  destruct (bfddp_buf_read sock b p) as [[r b1] p1] eqn:R.
  pose proof (bfddp_buf_read_ok _ _ _ _ _ _ Hok R) as Hok1.
  pose proof (buf_read_only_data _ _ _ _ _ _ Hok Hd R) as (Hd1 & Hr & Hz).
  destruct (Z.eqb_spec r (-1)); [contradiction |].
  destruct (BFDDP_BUF_FULL b1) eqn:F.
  - apply full_iff in F. intros E; injection E as <- <- <-.
    split; [| auto].
    destruct (Z.eq_dec (position b) (total b)) as [Hfull | Hnf].
    + rewrite buf_read_full in R by exact Hfull. injection R as <- _ _. lia.
    + apply buf_read_cases in R;
        [| exact Hok | destruct Hok as [(_ & ? & ? & ?) _]; lia].
      destruct R as (_ & [(? & _) | [(-> & _) | (_ & -> & _)]]);
        [lia | lia | destruct (is_transient _); lia].
  - destruct (Z.eqb_spec r 0) as [-> | Hnz].
    + intros E; injection E as <- <- <-.
      destruct (Hz eq_refl) as (-> & [Hfull | Hnil]);
        [apply full_iff in Hfull; congruence |].
      split; [lia | auto].
    + destruct (Z.ltb_spec 0 r); [| intros E; injection E as <- <- <-].
      * intros E. apply (IH _ _ _ _ _ _ _ Hok1 Hd1) in E; [exact E | lia].
      * exfalso.
        destruct (Z.eq_dec (position b) (total b)) as [Hfull | Hnf].
        -- rewrite buf_read_full in R by exact Hfull.
           injection R as <- _ _. lia.
        -- apply buf_read_cases in R;
             [| exact Hok | destruct Hok as [(_ & ? & ? & ?) _]; lia].
           destruct R as (_ & [(? & _) | [(-> & _) | (_ & -> & _)]]);
             [lia | lia | destruct (is_transient _); lia].
Qed.

(** X14.  With nothing but data pending on the socket, [bfddp_read] does not
    fail and reads until the inbound buffer is full or nothing is pending any
    more. *)
Theorem bfddp_read_drains abi c p :
  buf_ok (inbuf c) -> only_data (inbound p) ->
  exists rv c' p',
    bfddp_read abi c p = Some (rv, c', p') /\
    0 <= rv /\
    (position (inbuf c') = total (inbuf c') \/ inbound p' = []).
Proof.
  intros Hok Hd.
  destruct (bfddp_read_returns abi c p) as (rv & c' & p' & E).
  exists rv, c', p'. split; [exact E |].
  revert E. unfold bfddp_read.
  destruct (bfddp_read_loop _ _ _ _ _) as [[[r b] q] |] eqn:L;
    [| discriminate].
  intros E; injection E as <- <- <-. fields.
  apply (read_loop_drains _ _ _ _ _ _ _ _ (read_guard_ok abi _ Hok) Hd) in L;
    [exact L | lia].
Qed.

Lemma bfddp_read_drains_witness :
  exists c' p',
    bfddp_read tiny_abi small_ctx
      (proc_with [Arrive ["v"; "w"]%byte; Arrive ["x"; "y"; "z"]%byte]) =
    Some (3, c', p') /\
    (position (inbuf c') = total (inbuf c') \/ inbound p' = []) /\
    inbound p' = [Arrive ["y"; "z"]%byte].
Proof.
  assert (Hok : buf_ok (inbuf small_ctx)) by concrete_ok.
  assert (Hd : only_data
                 (inbound (proc_with [Arrive ["v"; "w"]%byte;
                                      Arrive ["x"; "y"; "z"]%byte])))
    by (repeat constructor; eexists; reflexivity).
  destruct (bfddp_read_drains tiny_abi small_ctx _ Hok Hd)
    as (rv & c' & p' & E & _ & Hfull).
  vm_compute in E. injection E as <- <- <-.
  do 2 eexists. split; [vm_compute; reflexivity |].
  split; [exact Hfull | reflexivity].
Defined.
